(** * Metadata_creation.py: a shallow embedding

    The script walks a directory of audio files, derives per-file
    attributes, optionally parses the file stem with a regular expression
    or a delimiter, and writes one CSV row per file.

    Conventions of the embedding.
    - Text is [string]: the characters of a Python [str] in their UTF-8
      bytes (a byte of a file name that is not UTF-8 is the surrogate that
      Python makes of it, encoded the same way). [str.lower] is a
      collaborator: a field of the [World] with the three facts about it
      that the proofs use.
    - A [pathlib.Path] is the list of its parts; the text of the input
      directory is kept as one leading part, so that the order of two
      paths below the same directory is the order of their parts.
      [suffix]/[stem] follow pathlib of CPython 3.11.
    - The file system, [re], [wave], the writing of the file and of
      standard output, and the csv float rendering are collaborators of
      the script: they are fields of a [World]. Directories can be
      listed and [resolve] always answers; an entry on which [stat]
      raises is [Denied].
    - A Python float is a binary64 number: a [spec_float] with the
      operations of [SpecFloat] at precision 53.
    - A dictionary row is a [gmap string value]; [VNone] is Python's None.
    - [main] is the body of [main()] from line 75 on, over a namespace
      [Args] read with the attribute names that the body uses. The file
      as shipped never gets there: line 66 ends inside a string literal,
      so compiling the module fails. [run_file] is the run of the file
      as shipped. *)

From Stdlib Require Import Ascii SpecFloat.
From stdpp Require Import base strings list gmap sorting pretty.

Local Open Scope Z_scope.
Set Warnings "-register-all,-clear-no-such-hyp".

(** ** Strings *)

Module Str.

(** Lower-casing of the letters A-Z; this is [str.lower] on text made of
    ASCII characters only, not on other text. *)
Definition ascii_lower_char (c : ascii) : ascii :=
  let n := Ascii.N_of_ascii c in
  if ((65 <=? n) && (n <=? 90))%N then Ascii.ascii_of_N (n + 32) else c.

Fixpoint ascii_lower (s : string) : string :=
  match s with
  | EmptyString => EmptyString
  | String c s' => String (ascii_lower_char c) (ascii_lower s')
  end.

(** Every character is below 128. *)
Fixpoint is_ascii (s : string) : bool :=
  match s with
  | EmptyString => true
  | String c s' => (Ascii.N_of_ascii c <? 128)%N && is_ascii s'
  end.

(** [s.startswith(".")] *)
Definition startswith_dot (s : string) : bool :=
  match s with
  | String c _ => bool_decide (c = "."%char)
  | EmptyString => false
  end.

(** [s.rfind(".")]: the index of the last dot, [None] for Python's -1.
    [i] is the index of the first character of [s]. *)
Fixpoint rfind_dot_from (i : nat) (s : string) : option nat :=
  match s with
  | EmptyString => None
  | String c s' =>
      match rfind_dot_from (S i) s' with
      | Some j => Some j
      | None => if bool_decide (c = "."%char) then Some i else None
      end
  end.
Definition rfind_dot : string -> option nat := rfind_dot_from 0.

(** [s[i:]] and [s[:i]] *)
Fixpoint drop (i : nat) (s : string) : string :=
  match i, s with
  | O, _ => s
  | S i', String _ s' => drop i' s'
  | S _, EmptyString => EmptyString
  end.
Fixpoint take (i : nat) (s : string) : string :=
  match i, s with
  | O, _ => EmptyString
  | S i', String c s' => String c (take i' s')
  | S _, EmptyString => EmptyString
  end.

(** [sep] is a prefix of [s] *)
Fixpoint is_prefix (sep s : string) : bool :=
  match sep, s with
  | EmptyString, _ => true
  | String a sep', String b s' => bool_decide (a = b) && is_prefix sep' s'
  | String _ _, EmptyString => false
  end.

(** The scan of [str.split(sep)] for a non-empty [sep]: left to right,
    cutting at every occurrence that does not overlap the previous one.
    [skip] counts the characters of an occurrence still to be consumed,
    [cur] is the current piece, reversed. *)
Fixpoint split_go (sep : string) (skip : nat) (cur : string) (s : string)
  : list string :=
  match s with
  | EmptyString => [String.rev cur]
  | String c s' =>
      match skip with
      | S k => split_go sep k cur s'
      | O =>
          if is_prefix sep s
          then String.rev cur :: split_go sep (String.length sep - 1) EmptyString s'
          else split_go sep O (String c cur) s'
      end
  end.

(** [s.split(sep)]: [None] stands for [ValueError("empty separator")]. *)
Definition split (s sep : string) : option (list string) :=
  match sep with
  | EmptyString => None
  | _ => Some (split_go sep O EmptyString s)
  end.

(** [sep.join(pieces)] *)
Fixpoint join (sep : string) (pieces : list string) : string :=
  match pieces with
  | [] => EmptyString
  | [x] => x
  | x :: rest => x +:+ sep +:+ join sep rest
  end.

End Str.

(** ** Paths *)

Definition Path := list string.

Module PurePath.

(** [p.name]: the final part *)
Definition name (p : Path) : string := List.last p EmptyString.

(** [p.suffix] *)
Definition suffix (p : Path) : string :=
  let n := name p in
  match Str.rfind_dot n with
  | Some i =>
      if bool_decide (0 < i)%nat && bool_decide (i < String.length n - 1)%nat
      then Str.drop i n else EmptyString
  | None => EmptyString
  end.

(** [p.stem] *)
Definition stem (p : Path) : string :=
  let n := name p in
  match Str.rfind_dot n with
  | Some i =>
      if bool_decide (0 < i)%nat && bool_decide (i < String.length n - 1)%nat
      then Str.take i n else n
  | None => n
  end.

(** [p / child] *)
Definition child (p : Path) (c : string) : Path := p ++ [c].

(** [not (q < p)], the test a stable sort makes to keep [p] before [q];
    tuples of parts compare lexicographically, strings by code point. *)
Fixpoint leb (p q : Path) : bool :=
  match p, q with
  | [], _ => true
  | _ :: _, [] => false
  | a :: p', b :: q' =>
      if bool_decide (a = b) then leb p' q' else String.leb a b
  end.

Definition le (p q : Path) : Prop := leb p q.

End PurePath.

(** ** Exceptions *)

Inductive Exc :=
| SystemExit (code : Z)
| ValueError (msg : string)
| ReError
| PermissionError
| SyntaxError.

(** ** The file system *)

(** What [stat] reports for the object a path reaches. *)
Inductive kind := Regular | Directory | OtherKind.

(** A directory entry as [lstat] sees it. A symbolic link records what
    following it reaches ([None] when it dangles or loops). [Denied] is
    an entry on which [stat] raises an error other than the four that
    pathlib takes for "not there" (the usual one: EACCES for an entry of a
    directory without search permission). *)
Inductive node :=
| File
| Dir (entries : list (string * node))
| Symlink (target : option kind)
| Special
| Denied.

(** [p.is_file()]: [S_ISREG(p.stat().st_mode)], where [stat] follows
    links; [None] when [is_file] lets the error of [stat] through
    ([PermissionError]). *)
Definition is_file (n : node) : option bool :=
  match n with
  | File => Some true
  | Symlink (Some Regular) => Some true
  | Denied => None
  | _ => Some false
  end.

(** [base.iterdir()]: the direct children, each with its entry *)
Definition iterdir (base : Path) (n : node) : list (Path * node) :=
  match n with
  | Dir es => (λ e : string * node, (PurePath.child base e.1, e.2)) <$> es
  | _ => []
  end.

(** [base.rglob("*")]: pathlib walks the real directories top-down
    (an entry that is a symbolic link is not entered) and lists the
    children of each. *)
Fixpoint rglob (base : Path) (n : node) : list (Path * node) :=
  match n with
  | Dir es =>
      iterdir base n ++
      (fix below (es : list (string * node)) : list (Path * node) :=
         match es with
         | [] => []
         | (c, sub) :: es' => rglob (PurePath.child base c) sub ++ below es'
         end) es
  | _ => []
  end.

(** ** Values, rows and collaborators *)

(** The Python values that end up in a row *)
Inductive value :=
| VNone
| VStr (s : string)
| VInt (n : Z)
| VFloat (x : spec_float).

Definition of_opt_str (o : option string) : value :=
  match o with
  | Some s => VStr s
  | None => VNone
  end.

(** A compiled pattern, as far as the script looks at it:
    [groupindex] lists the named groups in order of definition, and
    [rmatch s] is [regex.match(s)]: [None] when the pattern does not match
    at the start of [s], otherwise what [m.group(name)] is for each named
    group ([None] for a group that took no part in the match). *)
Record Pattern := {
  groupindex : list string;
  rmatch : string → option (string → option string)
}.

(** [m.groupdict().items()] *)
Definition groupdict (pat : Pattern) (m : string → option string)
  : list (string * value) :=
  (λ g, (g, of_opt_str (m g))) <$> groupindex pat.

Record World := {
  (** the object that the text of a path reaches, links followed *)
  root : string → option node;
  (** [p.stat().st_size] on line 98; [None] when [stat] raises there. The
      loop runs after the scan, so this answer is not tied to what the
      scan saw of the entry. *)
  stat_size : Path → option Z;
  (** [str(p.resolve())] *)
  resolve : Path → string;
  (** what mutagen's [File] would give for a path: [None] when it raises,
      [Some None] without a usable length, [Some (Some l)] with length [l] *)
  mutagen_File : Path → option (option spec_float);
  (** [wave.open(p, "rb")] with [getnframes()] and [getframerate()];
      [None] when one of them raises *)
  wave_read : Path → option (Z * Z);
  (** [re.compile]; [None] for [re.error] *)
  re_compile : string → option Pattern;
  (** opening the destination and writing the rows of a table to it:
      [None] when all of it goes through, otherwise the text of the
      exception *)
  write_table : string → list (list string) → option string;
  (** printing a line on standard output: [None] when it goes through,
      otherwise the text of the exception *)
  print_out : string → option string;
  (** how the csv writer prints a float *)
  float_str : spec_float → string;
  (** the text of the exception that ends lines 155-159 when some row
      has a key outside the header: that of [DictWriter]'s [ValueError]
      for the first such row, unless opening the destination or writing
      an earlier row raises before it *)
  write_refused : string → list string → list (gmap string value) → string;
  (** [str.lower], with what the proofs use of it: on ASCII text it
      lowers the letters A-Z; a leading dot stays a leading dot; and
      nothing but a dot becomes a leading dot *)
  str_lower : string → string;
  str_lower_ascii : ∀ s, Str.is_ascii s = true → str_lower s = Str.ascii_lower s;
  str_lower_dot : ∀ s, str_lower (String "." s) = String "." (str_lower s);
  str_lower_dot_inv : ∀ s,
    Str.startswith_dot (str_lower s) = true → Str.startswith_dot s = true
}.

(** The names bound in the module when its functions run: the imports of
    lines 1-7 and the three functions. *)
Definition module_globals : list string :=
  ["argparse"; "csv"; "os"; "re"; "sys"; "Path"; "wave";
   "get_duration_seconds"; "scan_directory"; "main"].

Definition name_bound (x : string) : bool := bool_decide (x ∈ module_globals).

(** [float(n)] for an integer: the nearest binary64 number; [None] for
    the [OverflowError] of an integer too large for a float *)
Definition float_of_int (n : Z) : option spec_float :=
  match binary_normalize 53 1024 n 0 false with
  | S754_infinity _ => None
  | S754_nan => None
  | x => Some x
  end.

(** [x / y] on floats, for [y] other than zero *)
Definition float_div (x y : spec_float) : spec_float := SFdiv 53 1024 x y.

(** [get_duration_seconds(path)], lines 23-43. Looking up a name that is
    not bound raises [NameError], which line 29 catches like any other
    exception of the first block. On line 39 both integers become
    floats before the division; line 40 catches an overflow there. *)
Definition get_duration_seconds (w : World) (path : Path) : option spec_float :=
  let general :=
    if name_bound "MutagenFile" then
      match mutagen_File w path with
      | Some (Some l) => Some l
      | _ => None
      end
    else None in
  match general with
  | Some l => Some l
  | None =>
      if bool_decide (str_lower w (PurePath.suffix path) = ".wav") then
        match wave_read w path with
        | Some (frames, framerate) =>
            if bool_decide (0 < framerate) then
              match float_of_int framerate, float_of_int frames with
              | Some y, Some x => Some (float_div x y)
              | _, _ => None
              end
            else None
        | None => None
        end
      else None
  end.

(** ** The scanner *)

(** Line 48: an entry of the filter, lower-cased, with its leading dot *)
Definition normalize_ext (w : World) (e : string) : string :=
  if Str.startswith_dot e then str_lower w e else "." +:+ str_lower w e.

(** Truth value of [exts] on line 47 ([None] and [[]] are false) *)
Definition exts_given (exts : option (list string)) : bool :=
  match exts with
  | Some (_ :: _) => true
  | _ => false
  end.

(** The set built on line 48 *)
Definition ext_set (w : World) (exts : option (list string)) : gset string :=
  list_to_set (normalize_ext w <$> default [] exts).

(** Lines 56-60 for one path *)
Definition ext_ok (w : World) (exts : option (list string)) (p : Path) : bool :=
  if exts_given exts && bool_decide (ext_set w exts ≠ ∅)
  then bool_decide (str_lower w (PurePath.suffix p) ∈ ext_set w exts)
  else true.

(** The loop of lines 54-60 over what the iterator yields; [files] is the
    list built so far. The first entry on which [is_file] raises ends
    the loop with its exception. *)
Fixpoint select_files (w : World) (exts : option (list string))
    (it : list (Path * node)) (files : list Path) : Exc + list Path :=
  match it with
  | [] => inr files
  | (p, n) :: it' =>
      match is_file n with
      | None => inl PermissionError
      | Some true =>
          if ext_ok w exts p
          then select_files w exts it' (files ++ [p])
          else select_files w exts it' files
      | Some false => select_files w exts it' files
      end
  end.

(** [scan_directory(base, exts, recursive)], lines 46-61; [root] is the
    directory that [base] denotes. *)
Definition scan_directory (w : World) (base : Path) (root : node)
    (exts : option (list string)) (recursive : bool) : Exc + list Path :=
  let it := if recursive then rglob base root else iterdir base root in
  match select_files w exts it [] with
  | inl e => inl e
  | inr files => inr (merge_sort PurePath.le files)
  end.


(** ** The run *)

Record Args := {
  input_dir : string;
  output : string;
  regex : option string;
  delimiter : option string;
  exts : option (list string);
  no_recursive : bool;
  skip_duration : bool
}.

(** What a run leaves behind: the exception that ended it, if any, the
    lines that the script itself printed on both streams (the traceback
    that the interpreter prints for an uncaught exception is not among
    them), and the table that stands complete in the destination
    (destination and rows of cells; a file left half written is not
    recorded). *)
Record Outcome := {
  raised : option Exc;
  stdout : list string;
  stderr : list string;
  csv : option (string * list (list string))
}.

(** Exit status of the interpreter *)
Definition exit_status (o : Outcome) : Z :=
  match raised o with
  | None => 0
  | Some (SystemExit c) => c
  | Some _ => 1
  end.

(** An exception other than [SystemExit] that reaches the top level *)
Definition uncaught (o : Outcome) : option Exc :=
  match raised o with
  | Some (SystemExit _) => None
  | r => r
  end.

Definition base_cols : list string :=
  ["filepath"; "filename"; "name"; "ext"; "size_bytes"; "duration_seconds"].

(** [f"token_{i}"] *)
Definition token_col (i : nat) : string := "token_" +:+ pretty i.

(** [row.setdefault(k, v)] *)
Definition setdefault (k : string) (v : value) (row : gmap string value)
  : gmap string value :=
  match row !! k with
  | Some _ => row
  | None => <[k:=v]> row
  end.

(** Lines 93-113 *)
Definition base_row (w : World) (args : Args) (p : Path) : gmap string value :=
  let filename := PurePath.name p in
  let name_wo_ext := PurePath.stem p in
  let ext := str_lower w (PurePath.suffix p) in
  let size := from_option VInt VNone (stat_size w p) in
  let duration :=
    if skip_duration args then VNone
    else from_option VFloat VNone (get_duration_seconds w p) in
  <["duration_seconds":=duration]>
    (<["size_bytes":=size]>
      (<["ext":=VStr ext]>
        (<["name":=VStr name_wo_ext]>
          (<["filename":=VStr filename]>
            (<["filepath":=VStr (resolve w p)]> ∅))))).

(** Lines 127-128 *)
Fixpoint set_tokens (i : nat) (tokens : list string) (row : gmap string value)
  : gmap string value :=
  match tokens with
  | [] => row
  | t :: ts => set_tokens (S i) ts (<[token_col i:=VStr t]> row)
  end.

(** The parsing mode fixed by lines 85-87 *)
Inductive Mode :=
| UseRegex (pat : Pattern)
| UseSplit (delim : string)
| NoParse.

(** Lines 115-129 for one row; the number is [max_tokens]. *)
Definition parse_row (mode : Mode) (name_wo_ext : string)
    (row : gmap string value) (max_tokens : nat)
  : Exc + (gmap string value * nat) :=
  match mode with
  | UseRegex pat =>
      match rmatch pat name_wo_ext with
      | Some m =>
          inr (foldl (λ r kv, <[kv.1:=kv.2]> r) row (groupdict pat m), max_tokens)
      | None =>
          inr (foldl (λ r g, setdefault g VNone r) row (groupindex pat), max_tokens)
      end
  | UseSplit delim =>
      match Str.split name_wo_ext delim with
      | None => inl (ValueError "empty separator")
      | Some tokens =>
          inr (set_tokens 1 tokens row, max_tokens `max` length tokens)%nat
      end
  | NoParse => inr (row, max_tokens)
  end.

(** The loop of lines 92-131 *)
Fixpoint build_rows (w : World) (args : Args) (mode : Mode) (files : list Path)
    (rows : list (gmap string value)) (max_tokens : nat)
  : Exc + (list (gmap string value) * nat) :=
  match files with
  | [] => inr (rows, max_tokens)
  | p :: files' =>
      match parse_row mode (PurePath.stem p) (base_row w args p) max_tokens with
      | inl e => inl e
      | inr (row, max_tokens') =>
          build_rows w args mode files' (rows ++ [row]) max_tokens'
      end
  end.

(** Lines 85-87: a regex that is given and not empty wins over the
    delimiter; compiling it may raise. *)
Definition select_mode (w : World) (args : Args) : Exc + Mode :=
  match regex args with
  | Some (String c r) =>
      match re_compile w (String c r) with
      | Some pat => inr (UseRegex pat)
      | None => inl ReError
      end
  | _ =>
      match delimiter args with
      | Some d => inr (UseSplit d)
      | None => inr NoParse
      end
  end.

(** Lines 134-144 *)
Definition token_cols (mode : Mode) (max_tokens : nat) : list string :=
  match mode with
  | UseSplit _ => token_col <$> seq 1 max_tokens
  | _ => []
  end.

Definition extra_cols (mode : Mode) : list string :=
  match mode with
  | UseRegex pat => groupindex pat
  | _ => []
  end.

Definition fieldnames (mode : Mode) (max_tokens : nat) : list string :=
  base_cols ++ extra_cols mode ++ token_cols mode max_tokens.

(** Lines 147-150 for one row *)
Definition fill_row (fields : list string) (r : gmap string value)
  : gmap string value :=
  foldl (λ r c, setdefault c VNone r) r fields.

(** The text the csv writer puts in a cell *)
Definition csv_field (w : World) (v : value) : string :=
  match v with
  | VNone => EmptyString
  | VStr s => s
  | VInt n => pretty n
  | VFloat x => float_str w x
  end.

(** [DictWriter._dict_to_list]: a key outside [fieldnames] raises
    [ValueError] ([None] here); a missing key gives [restval]. *)
Definition dict_to_list (fields : list string) (r : gmap string value)
  : option (list value) :=
  if bool_decide (dom r ⊆ list_to_set fields)
  then Some ((λ k, default (VStr EmptyString) (r !! k)) <$> fields)
  else None.

(** Lines 157-159: the header row is [fieldnames] itself; the rows follow. *)
Definition csv_table (w : World) (fields : list string)
    (rows : list (gmap string value)) : option (list (list string)) :=
  match mapM (dict_to_list fields) rows with
  | Some cells => Some (fields :: (fmap (M:=list) (csv_field w) <$> cells))
  | None => None
  end.

Definition msg_not_a_directory : string :=
  "Le dossier d'entrée n'existe pas ou n'est pas un dossier.".
Definition msg_no_file : string := "Aucun fichier trouvé.".
(** Line 162: the prefix, a space, and the text of the exception *)
Definition msg_write_error (text : string) : string :=
  "Erreur à l'écriture du CSV: " +:+ text.
Definition msg_written (w : World) (args : Args) : string :=
  "CSV écrit: " +:+ resolve w [output args].

Definition exit_with (msg : string) : Outcome :=
  {| raised := Some (SystemExit 1); stdout := []; stderr := [msg]; csv := None |}.

Definition crash (e : Exc) : Outcome :=
  {| raised := Some e; stdout := []; stderr := []; csv := None |}.

(** Lines 153-163. Whatever raises inside the [try], the opening, a
    [writerow] or the [print] of line 160, ends in the handler of line
    161; when it is the [print], the table already stands in the
    destination. [csv_table] is [None] when [DictWriter] refuses a row,
    and otherwise the table that lines 157-159 hand to the file. *)
Definition write_csv (w : World) (args : Args) (fields : list string)
    (rows : list (gmap string value)) : Outcome :=
  match csv_table w fields rows with
  | None =>
      exit_with (msg_write_error (write_refused w (output args) fields rows))
  | Some table =>
      match write_table w (output args) table with
      | Some text => exit_with (msg_write_error text)
      | None =>
          match print_out w (msg_written w args) with
          | Some text =>
              {| raised := Some (SystemExit 1); stdout := [];
                 stderr := [msg_write_error text];
                 csv := Some (output args, table) |}
          | None =>
              {| raised := None; stdout := [msg_written w args]; stderr := [];
                 csv := Some (output args, table) |}
          end
      end
  end.

(** Lines 89-150: the schema and the rows made uniform over it *)
Definition collect (w : World) (args : Args) (mode : Mode) (files : list Path)
  : Exc + (list string * list (gmap string value)) :=
  match build_rows w args mode files [] 0 with
  | inl e => inl e
  | inr (rows, max_tokens) =>
      let fields := fieldnames mode max_tokens in
      inr (fields, fill_row fields <$> rows)
  end.

(** The body of [main()], lines 75-163, on a namespace [args]. On line
    76 [exists()] lets the error of [stat] through like [is_file]. *)
Definition main (w : World) (args : Args) : Outcome :=
  let base : Path := [input_dir args] in
  match root w (input_dir args) with
  | Some (Dir es) =>
      match scan_directory w base (Dir es) (exts args)
              (negb (no_recursive args)) with
      | inl e => crash e
      | inr [] => exit_with msg_no_file
      | inr files =>
          match select_mode w args with
          | inl e => crash e
          | inr mode =>
              match collect w args mode files with
              | inl e => crash e
              | inr (fields, rows) => write_csv w args fields rows
              end
          end
      end
  | Some Denied => crash PermissionError
  | _ => exit_with msg_not_a_directory
  end.

(** ** The file as shipped *)

Definition quote : string := String "034" EmptyString.

(** The text of line 66, without its indentation *)
Definition line_66 : string :=
  "ap.add_argument(" +:+ quote
  +:+ "C:/Users/augus/OneDrive/Documents/Cours/ACO/M2/Machine Learning\Projet chat\DeepMeows\dataset"
  +:+ quote +:+ quote +:+ ", help=" +:+ quote
  +:+ "Dossier contenant les fichiers audio" +:+ quote +:+ ")".

(** Where the tokenizer stands inside a line *)
Inductive lex_state :=
| InCode
| InString (q : ascii)
| InTriple (q : ascii)
| InComment.

Definition is_quote (c : ascii) : bool :=
  bool_decide (c = "034"%char) || bool_decide (c = "'"%char).

(** Python's tokenizer over the characters of one line, as far as string
    literals go: a quote opens a literal (a triple-quoted one when two
    more of the same follow), the same quote closes it, a backslash
    inside a literal takes the next character with it, and [#] outside a
    literal starts a comment. *)
Fixpoint lex_line (st : lex_state) (s : string) : lex_state :=
  match s with
  | EmptyString => st
  | String c s' =>
      match st with
      | InComment => InComment
      | InCode =>
          if is_quote c then
            match s' with
            | String c1 (String c2 s'') =>
                if bool_decide (c1 = c) && bool_decide (c2 = c)
                then lex_line (InTriple c) s''
                else lex_line (InString c) s'
            | _ => lex_line (InString c) s'
            end
          else if bool_decide (c = "#"%char) then InComment
          else lex_line InCode s'
      | InString q =>
          if bool_decide (c = "\"%char) then
            match s' with
            | String _ s'' => lex_line (InString q) s''
            | EmptyString => InString q
            end
          else if bool_decide (c = q) then lex_line InCode s'
          else lex_line (InString q) s'
      | InTriple q =>
          if bool_decide (c = "\"%char) then
            match s' with
            | String _ s'' => lex_line (InTriple q) s''
            | EmptyString => InTriple q
            end
          else if bool_decide (c = q) then
            match s' with
            | String c1 (String c2 s'') =>
                if bool_decide (c1 = q) && bool_decide (c2 = q)
                then lex_line InCode s''
                else lex_line (InTriple q) s'
            | _ => lex_line (InTriple q) s'
            end
          else lex_line (InTriple q) s'
      end
  end.

(** Compiling the module: a line that ends inside a one-line string
    literal is a [SyntaxError]. Line 66 is the line of the file that is
    looked at; it starts outside any literal. *)
Definition compile_module : Exc + unit :=
  match lex_line InCode line_66 with
  | InString _ => inl SyntaxError
  | _ => inr ()
  end.

(** Running the file: the interpreter compiles the whole module first,
    and only then runs it; [body] is what the code would do next. *)
Definition run_file (body : Outcome) : Outcome :=
  match compile_module with
  | inl e => crash e
  | inr _ => body
  end.

(** ** Notions used to state the properties *)

(** The entry found by walking the names [rest] down from [n], without
    following links *)
Fixpoint assoc (c : string) (es : list (string * node)) : option node :=
  match es with
  | [] => None
  | (c', n) :: es' => if bool_decide (c' = c) then Some n else assoc c es'
  end.

Fixpoint lstat (n : node) (rest : list string) : option node :=
  match rest with
  | [] => Some n
  | c :: rest' =>
      match n with
      | Dir es =>
          match assoc c es with
          | Some sub => lstat sub rest'
          | None => None
          end
      | _ => None
      end
  end.

(** The names in every directory are pairwise distinct. *)
Fixpoint wf_node (n : node) : bool :=
  match n with
  | Dir es =>
      bool_decide (NoDup es.*1) &&
      (fix all (es : list (string * node)) : bool :=
         match es with
         | [] => true
         | (_, sub) :: es' => wf_node sub && all es'
         end) es
  | _ => true
  end.

(** A filter entry with its leading dot, as the user would write it *)
Definition dotted (e : string) : string :=
  if Str.startswith_dot e then e else "." +:+ e.

(** The parsing options can be used: a regex that is given and not empty
    compiles; without such a regex, the delimiter is not the empty string. *)
Definition parse_options_usable (w : World) (args : Args) : Prop :=
  match regex args with
  | Some (String c r) => is_Some (re_compile w (String c r))
  | _ => delimiter args ≠ Some EmptyString
  end.

(** What line 80 returns *)
Definition scanned (w : World) (args : Args) (dir : node) : Exc + list Path :=
  scan_directory w [input_dir args] dir (exts args) (negb (no_recursive args)).

(** Some entry that the scan visits is [Denied]. *)
Definition visits_denied (root : node) (recursive : bool) : Prop :=
  ∃ rest, rest ≠ [] ∧ (recursive = false → length rest = 1%nat)
          ∧ lstat root rest = Some Denied.

(** Number of pieces of the stem of [p] cut at [d] *)
Definition token_count (d : string) (p : Path) : nat :=
  length (default [] (Str.split (PurePath.stem p) d)).

(** Occurrences of a column name in a header *)
Definition occurrences (c : string) (fields : list string) : nat :=
  length (filter (λ x, x = c) fields).

(** ** A concrete world *)

Module Sample.

(** A directory with two audio files in different letter case, a text
    file, a subdirectory, and entries that are not regular files. *)
Definition entries : list (string * node) :=
  [ ("b_2.WAV", File);
    ("a_1.wav", File);
    ("notes.txt", File);
    ("sub", Dir [ ("c_3_x.wav", File); ("song.mp3", File) ]);
    ("link.wav", Symlink (Some Regular));
    ("dangling.wav", Symlink None);
    ("pipe.wav", Special);
    ("linkdir", Symlink (Some Directory)) ].

Definition tree : node := Dir entries.

Definition is_digit (c : ascii) : bool :=
  let n := Ascii.N_of_ascii c in ((48 <=? n) && (n <=? 57))%N.

Fixpoint span (f : ascii → bool) (s : string) : string * string :=
  match s with
  | EmptyString => (EmptyString, EmptyString)
  | String c s' =>
      if f c then let '(a, b) := span f s' in (String c a, b)
      else (EmptyString, s)
  end.

(** The matcher of [(?P<g1>[^_]+)_(?P<g2>\d+)] on stems of ASCII
    characters, written by hand: a non-empty run without underscore, an
    underscore, a non-empty run of digits. *)
Definition two_groups (g1 g2 : string) : Pattern :=
  {| groupindex := [g1; g2];
     rmatch s :=
       let '(a, rest) := span (λ c, negb (bool_decide (c = "_"%char))) s in
       match a, rest with
       | String _ _, String _ rest' =>
           let '(d, _) := span is_digit rest' in
           match d with
           | String _ _ =>
               Some (λ g, if bool_decide (g = g1) then Some a
                          else if bool_decide (g = g2) then Some d
                          else None)
           | EmptyString => None
           end
       | _, _ => None
       end |}.

(** [re.compile] on the three patterns used below; an unbalanced
    parenthesis is an error for [re]. *)
Definition compile (r : string) : option Pattern :=
  if bool_decide (r = "(?P<sujet>[^_]+)_(?P<age>\d+)")
  then Some (two_groups "sujet" "age")
  else if bool_decide (r = "(?P<filename>[^_]+)_(?P<age>\d+)")
  then Some (two_groups "filename" "age")
  else if bool_decide (r = "(?P<name>[^_]+)_(?P<age>\d+)")
  then Some (two_groups "name" "age")
  else if bool_decide (r = "(") then None
  else Some {| groupindex := []; rmatch _ := None |}.

(** The float 3.5 *)
Definition three_and_a_half : spec_float := binary_normalize 53 1024 7 (-1) false.

(** A stand-in for the text of a float: sign, mantissa and binary
    exponent *)
Definition show_float (x : spec_float) : string :=
  match x with
  | S754_zero _ => "0.0"
  | S754_infinity s => if s then "-inf" else "inf"
  | S754_nan => "nan"
  | S754_finite s m e =>
      (if s then "-" else EmptyString) +:+ pretty (Zpos m) +:+ "p" +:+ pretty e
  end.

Definition ascii_lower_dot_inv : ∀ s,
  Str.startswith_dot (Str.ascii_lower s) = true → Str.startswith_dot s = true :=
  ltac:(intros [|[[] [] [] [] [] [] [] []] s]; exact (λ H, H)).

(** [str.lower] is given on ASCII text, which is all that the names
    below hold. *)
Definition world : World :=
  {| root s := if bool_decide (s = "data") then Some tree else None;
     stat_size p := if bool_decide (PurePath.name p = "b_2.WAV") then None else Some 1024;
     resolve p := foldr (λ part acc, "/" +:+ part +:+ acc) EmptyString ("home" :: p);
     mutagen_File p :=
       if bool_decide (PurePath.name p = "song.mp3") then Some (Some three_and_a_half)
       else Some None;
     wave_read p :=
       if bool_decide (PurePath.name p = "a_1.wav") then Some (88200, 44100)
       else None;
     re_compile := compile;
     write_table s _ :=
       if bool_decide (s = "metadata.csv") then None
       else Some "[Errno 13] Permission denied";
     print_out _ := None;
     float_str := show_float;
     write_refused _ _ _ := "dict contains fields not in fieldnames";
     str_lower := Str.ascii_lower;
     str_lower_ascii := λ s _, eq_refl;
     str_lower_dot := λ s, eq_refl;
     str_lower_dot_inv := ascii_lower_dot_inv |}.

(** The same world, where every [stat] of line 98 and every reading of
    an audio file fails *)
Definition unreadable : World :=
  {| root := root world;
     stat_size _ := None;
     resolve := resolve world;
     mutagen_File _ := None;
     wave_read _ := None;
     re_compile := re_compile world;
     write_table := write_table world;
     print_out := print_out world;
     float_str := float_str world;
     write_refused := write_refused world;
     str_lower := str_lower world;
     str_lower_ascii := str_lower_ascii world;
     str_lower_dot := str_lower_dot world;
     str_lower_dot_inv := str_lower_dot_inv world |}.

Definition args : Args :=
  {| input_dir := "data"; output := "metadata.csv"; regex := None;
     delimiter := None; exts := Some ["wav"]; no_recursive := false;
     skip_duration := false |}.

(** The files below [data] that the filter [wav] keeps, in order *)
Definition files : list Path :=
  [["data"; "a_1.wav"]; ["data"; "b_2.WAV"]; ["data"; "link.wav"];
   ["data"; "sub"; "c_3_x.wav"]].

Definition with_regex (r : string) (a : Args) : Args :=
  {| input_dir := input_dir a; output := output a; regex := Some r;
     delimiter := delimiter a; exts := exts a;
     no_recursive := no_recursive a; skip_duration := skip_duration a |}.

Definition with_delimiter (d : string) (a : Args) : Args :=
  {| input_dir := input_dir a; output := output a; regex := regex a;
     delimiter := Some d; exts := exts a;
     no_recursive := no_recursive a; skip_duration := skip_duration a |}.

Definition with_input (d : string) (a : Args) : Args :=
  {| input_dir := d; output := output a; regex := regex a;
     delimiter := delimiter a; exts := exts a;
     no_recursive := no_recursive a; skip_duration := skip_duration a |}.

Definition with_output (o : string) (a : Args) : Args :=
  {| input_dir := input_dir a; output := o; regex := regex a;
     delimiter := delimiter a; exts := exts a;
     no_recursive := no_recursive a; skip_duration := skip_duration a |}.

Definition with_exts (e : list string) (a : Args) : Args :=
  {| input_dir := input_dir a; output := output a; regex := regex a;
     delimiter := delimiter a; exts := Some e;
     no_recursive := no_recursive a; skip_duration := skip_duration a |}.

End Sample.

(** ** Further notions *)

(** [sep in s] *)
Fixpoint contains (sep s : string) : bool :=
  Str.is_prefix sep s ||
  match s with
  | String _ s' => contains sep s'
  | EmptyString => false
  end.

(** Some occurrence of [sep] in [acc +:+ s] starts inside [acc] *)
Fixpoint starts_within (sep acc s : string) : bool :=
  match acc with
  | EmptyString => false
  | String _ acc' => Str.is_prefix sep (acc +:+ s) || starts_within sep acc' s
  end.

(** The texts that the csv writer gets for the six fixed columns of the
    file [p], when no named group overwrites them *)
Definition base_cells (w : World) (args : Args) (p : Path) : list string :=
  [ resolve w p;
    PurePath.name p;
    PurePath.stem p;
    str_lower w (PurePath.suffix p);
    from_option pretty EmptyString (stat_size w p);
    if skip_duration args then EmptyString
    else from_option (float_str w) EmptyString (get_duration_seconds w p) ].

(** The arguments [a] with another value for [--regex] *)
Definition set_regex (r : option string) (a : Args) : Args :=
  {| input_dir := input_dir a; output := output a; regex := r;
     delimiter := delimiter a; exts := exts a;
     no_recursive := no_recursive a; skip_duration := skip_duration a |}.

Module Fixture.

(** The entries of [Sample.tree] as another listing returns them *)
Definition shuffled : node :=
  Dir [ ("linkdir", Symlink (Some Directory));
        ("sub", Dir [ ("song.mp3", File); ("c_3_x.wav", File) ]);
        ("a_1.wav", File);
        ("pipe.wav", Special);
        ("notes.txt", File);
        ("dangling.wav", Symlink None);
        ("b_2.WAV", File);
        ("link.wav", Symlink (Some Regular)) ].

(** [Sample.world] with audio readers that answer differently *)
Definition other_audio : World :=
  {| root := root Sample.world;
     stat_size := stat_size Sample.world;
     resolve := resolve Sample.world;
     mutagen_File _ := None;
     wave_read _ := Some (1, 2);
     re_compile := re_compile Sample.world;
     write_table := write_table Sample.world;
     print_out := print_out Sample.world;
     float_str := float_str Sample.world;
     write_refused := write_refused Sample.world;
     str_lower := str_lower Sample.world;
     str_lower_ascii := str_lower_ascii Sample.world;
     str_lower_dot := str_lower_dot Sample.world;
     str_lower_dot_inv := str_lower_dot_inv Sample.world |}.

(** [Sample.tree] with one more entry, on which [stat] raises *)
Definition locked : node := Dir (Sample.entries ++ [("locked.wav", Denied)]).

(** [Sample.world] where [data] is that directory *)
Definition locked_world : World :=
  {| root s := if bool_decide (s = "data") then Some locked else None;
     stat_size := stat_size Sample.world;
     resolve := resolve Sample.world;
     mutagen_File := mutagen_File Sample.world;
     wave_read := wave_read Sample.world;
     re_compile := re_compile Sample.world;
     write_table := write_table Sample.world;
     print_out := print_out Sample.world;
     float_str := float_str Sample.world;
     write_refused := write_refused Sample.world;
     str_lower := str_lower Sample.world;
     str_lower_ascii := str_lower_ascii Sample.world;
     str_lower_dot := str_lower_dot Sample.world;
     str_lower_dot_inv := str_lower_dot_inv Sample.world |}.

(** A readable file next to a directory whose entry cannot be reached *)
Definition locked_below : node :=
  Dir [ ("ok_1.wav", File); ("sub", Dir [ ("x.wav", Denied) ]) ].

(** [Sample.world] where the line of line 160 cannot be printed *)
Definition mute_world : World :=
  {| root := root Sample.world;
     stat_size := stat_size Sample.world;
     resolve := resolve Sample.world;
     mutagen_File := mutagen_File Sample.world;
     wave_read := wave_read Sample.world;
     re_compile := re_compile Sample.world;
     write_table := write_table Sample.world;
     print_out _ := Some "[Errno 32] Broken pipe";
     float_str := float_str Sample.world;
     write_refused := write_refused Sample.world;
     str_lower := str_lower Sample.world;
     str_lower_ascii := str_lower_ascii Sample.world;
     str_lower_dot := str_lower_dot Sample.world;
     str_lower_dot_inv := str_lower_dot_inv Sample.world |}.

Definition skip_args : Args :=
  {| input_dir := "data"; output := "metadata.csv"; regex := None;
     delimiter := Some "_"; exts := Some ["wav"]; no_recursive := false;
     skip_duration := true |}.

End Fixture.

Example suffix_wav : PurePath.suffix ["d"; "Cat.01.WAV"] = ".WAV".
Proof. reflexivity. Qed.
Example stem_wav : PurePath.stem ["d"; "Cat.01.WAV"] = "Cat.01".
Proof. reflexivity. Qed.
Example suffix_hidden : PurePath.suffix ["d"; ".bashrc"] = EmptyString.
Proof. reflexivity. Qed.
Example suffix_trailing_dot : PurePath.suffix ["d"; "a."] = EmptyString.
Proof. reflexivity. Qed.
Example split_abc : Str.split "a_b_c" "_" = Some ["a"; "b"; "c"].
Proof. reflexivity. Qed.
Example split_overlap : Str.split "a___b" "__" = Some ["a"; "_b"].
Proof. reflexivity. Qed.
Example split_edges : Str.split "_a_" "_" = Some [EmptyString; "a"; EmptyString].
Proof. reflexivity. Qed.
Example lower_mixed : Str.ascii_lower ".WaV" = ".wav".
Proof. reflexivity. Qed.

(** * Properties *)

(** ** Order on paths *)

Section path_order.

Global Instance path_le_total : Total PurePath.le.
Proof.
  intros p. unfold PurePath.le.
  induction p as [|a p IH]; intros [|b q]; simpl; auto.
  destruct (decide (a = b)) as [->|Hab].
  - rewrite !bool_decide_true by done. apply IH.
  - rewrite !bool_decide_false by done.
    destruct (String.leb_total a b) as [->| ->]; auto.
Qed.

Global Instance path_le_refl : Reflexive PurePath.le.
Proof.
  intros p. unfold PurePath.le.
  induction p as [|a p IH]; simpl; [done|].
  by rewrite bool_decide_true.
Qed.

Global Instance path_le_trans : Transitive PurePath.le.
Proof.
  unfold PurePath.le. intros p.
  induction p as [|a p IH]; intros [|b q] [|c r]; simpl; try done.
  destruct (decide (a = b)) as [->|Hab], (decide (b = c)) as [->|Hbc];
    rewrite ?bool_decide_true, ?bool_decide_false by done; try done.
  - apply IH.
  - intros Hle1 Hle2.
    destruct (decide (a = c)) as [->|Hac].
    + destruct Hab. by apply (anti_symm String.le).
    + rewrite bool_decide_false by done.
      change (String.le a c). by trans b.
Qed.

Global Instance path_le_antisym : AntiSymm (=) PurePath.le.
Proof.
  unfold PurePath.le. intros p.
  induction p as [|a p IH]; intros [|b q]; simpl; try done.
  destruct (decide (a = b)) as [->|Hab].
  - rewrite !bool_decide_true by done. intros Hle1 Hle2.
    f_equal. by apply IH.
  - rewrite !bool_decide_false by done. intros Hle1 Hle2.
    destruct Hab. by apply (anti_symm String.le).
Qed.

End path_order.

(** ** Splitting a stem *)

Section splitting.

Lemma app_cons c (s t : string) : String c s +:+ t = String c (s +:+ t).
Proof. done. Qed.

Lemma app_empty_r (s : string) : s +:+ EmptyString = s.
Proof. induction s as [|c s IH]; [done|]. by rewrite app_cons, IH. Qed.

Lemma rev_app_app (s acc t : string) :
  String.rev_app s acc +:+ t = String.rev_app s (acc +:+ t).
Proof. revert acc. induction s as [|c s IH]; intros acc; [done|]. apply IH. Qed.

Lemma rev_cons_app c (cur t : string) :
  String.rev (String c cur) +:+ t = String.rev cur +:+ String c t.
Proof. unfold String.rev. simpl. by rewrite !rev_app_app. Qed.

Lemma is_prefix_drop (sep s : string) :
  Str.is_prefix sep s → sep +:+ Str.drop (String.length sep) s = s.
Proof.
  revert s. induction sep as [|a sep IH]; intros [|b s]; simpl; try done.
  intros [->%bool_decide_unpack Hpre]%andb_True.
  rewrite app_cons. f_equal. by apply IH.
Qed.

Lemma split_go_not_nil sep s : ∀ skip cur, Str.split_go sep skip cur s ≠ [].
Proof.
  induction s as [|c s IH]; intros skip cur; [done|].
  cbn [Str.split_go]. destruct skip; [|by apply IH].
  destruct (Str.is_prefix sep (String c s)); [done|by apply IH].
Qed.

Lemma join_cons sep x rest :
  rest ≠ [] → Str.join sep (x :: rest) = x +:+ sep +:+ Str.join sep rest.
Proof. by destruct rest. Qed.

Lemma split_go_join a sep s : ∀ skip cur,
  Str.join (String a sep) (Str.split_go (String a sep) skip cur s)
  = String.rev cur +:+ Str.drop skip s.
Proof.
  induction s as [|c s IH]; intros skip cur.
  - destruct skip; simpl; by rewrite app_empty_r.
  - destruct skip as [|k]; [|apply IH].
    cbn [Str.split_go].
    destruct (Str.is_prefix (String a sep) (String c s)) eqn:Hpre.
    + rewrite join_cons by apply split_go_not_nil. rewrite IH.
      f_equal. simpl in Hpre. apply andb_prop in Hpre as [Hac Hpre].
      apply bool_decide_eq_true in Hac as ->.
      simpl. rewrite Nat.sub_0_r. rewrite app_cons. f_equal.
      apply is_prefix_drop. by rewrite Hpre.
    + rewrite IH. simpl Str.drop. apply rev_cons_app.
Qed.

(** Joining the pieces of [s.split(sep)] with [sep] gives [s] back. *)
Lemma split_join s sep :
  sep ≠ EmptyString →
  ∃ pieces, Str.split s sep = Some pieces ∧ pieces ≠ [] ∧ Str.join sep pieces = s.
Proof.
  destruct sep as [|a sep]; [done|]. intros _. eexists. split; [done|].
  split; [apply split_go_not_nil|]. by rewrite split_go_join.
Qed.

End splitting.

(** ** The directory scanner *)

Section scanner.

Lemma node_nested_ind (P : node → Prop) :
  P File →
  (∀ es, Forall (λ e : string * node, P e.2) es → P (Dir es)) →
  (∀ t, P (Symlink t)) →
  P Special →
  P Denied →
  ∀ n, P n.
Proof.
  intros HFile HDir HLink HSpecial HDenied.
  fix IH 1. intros [|es|t| |]; [done| |done..].
  apply HDir. induction es as [|[c sub] es IHes]; constructor; [apply IH|done].
Qed.

Lemma rglob_Dir base es :
  rglob base (Dir es) =
  iterdir base (Dir es) ++
  (es ≫= λ e : string * node, rglob (PurePath.child base e.1) e.2).
Proof.
  simpl. f_equal. induction es as [|[c sub] es IH]; simpl; [done|].
  by rewrite IH.
Qed.

Lemma wf_node_Dir es :
  wf_node (Dir es) ↔
  NoDup es.*1 ∧ Forall (λ e : string * node, wf_node e.2) es.
Proof.
  simpl. rewrite andb_True, bool_decide_spec.
  apply and_iff_compat_l.
  induction es as [|[c sub] es IH]; simpl.
  - split; [constructor|done].
  - rewrite andb_True, Forall_cons, IH. done.
Qed.

Lemma assoc_elem_of c es n : assoc c es = Some n → (c, n) ∈ es.
Proof.
  induction es as [|[c' n'] es IH]; simpl; [done|].
  case_bool_decide; subst.
  - intros [= ->]. left.
  - intros ?. right. auto.
Qed.

Lemma assoc_NoDup c es n : NoDup es.*1 → (c, n) ∈ es → assoc c es = Some n.
Proof.
  induction es as [|[c' n'] es IH]; simpl; [by intros _ ?%elem_of_nil|].
  intros [Hnotin Hnodup]%NoDup_cons [[= -> ->]|Hin]%elem_of_cons.
  - by rewrite bool_decide_true.
  - rewrite bool_decide_false; [by apply IH|].
    intros ->. apply Hnotin. apply list_elem_of_fmap. by exists (c, n).
Qed.

Lemma elem_of_iterdir base es p m :
  (p, m) ∈ iterdir base (Dir es) ↔ ∃ c, p = base ++ [c] ∧ (c, m) ∈ es.
Proof.
  simpl. rewrite list_elem_of_fmap. split.
  - intros [[c n] [[= -> ->] Hin]]. by exists c.
  - intros (c & -> & Hin). by exists (c, m).
Qed.

(** Every listed path lies below the base, at the place [lstat] finds. *)
Lemma rglob_sound n :
  wf_node n → ∀ base p m,
  (p, m) ∈ rglob base n →
  ∃ rest, rest ≠ [] ∧ p = base ++ rest ∧ lstat n rest = Some m.
Proof.
  induction n as [|es IH| | |] using node_nested_ind;
    intros Hwf base p m; try by intros ?%elem_of_nil.
  apply wf_node_Dir in Hwf as [Hnodup Hsub].
  rewrite rglob_Dir, elem_of_app, elem_of_iterdir, list_elem_of_bind.
  intros [(c & -> & Hin)|([c sub] & Hin' & Hin)].
  - exists [c]. split_and!; [done..|]. simpl.
    by rewrite (assoc_NoDup _ _ _ Hnodup Hin).
  - rewrite Forall_forall in IH, Hsub.
    destruct (IH _ Hin (Hsub _ Hin) _ _ _ Hin') as (rest & Hne & -> & Hl).
    exists (c :: rest). split_and!; [done| |].
    + unfold PurePath.child. by rewrite <-app_assoc.
    + simpl. by rewrite (assoc_NoDup _ _ _ Hnodup Hin).
Qed.

(** Every entry below the root is listed. *)
Lemma rglob_complete rest : ∀ n base m,
  rest ≠ [] → lstat n rest = Some m → (base ++ rest, m) ∈ rglob base n.
Proof.
  induction rest as [|c rest IH]; intros n base m Hne; [done|].
  simpl. destruct n as [|es| | |]; try done.
  destruct (assoc c es) as [sub|] eqn:Hassoc; [|done].
  apply assoc_elem_of in Hassoc. intros Hl.
  rewrite rglob_Dir, elem_of_app, elem_of_iterdir, list_elem_of_bind.
  destruct rest as [|c' rest].
  - left. exists c. by simplify_eq/=.
  - right. exists (c, sub). split; [|done]. simpl.
    replace (base ++ c :: c' :: rest)
      with (PurePath.child base c ++ c' :: rest)
      by (unfold PurePath.child; by rewrite <-app_assoc).
    by apply IH.
Qed.

Lemma rglob_NoDup n : wf_node n → ∀ base, NoDup (rglob base n).*1.
Proof.
  induction n as [|es IH| | |] using node_nested_ind;
    intros Hwf base; try by constructor.
  pose proof Hwf as [Hnodup Hsub]%wf_node_Dir.
  rewrite rglob_Dir, fmap_app. apply NoDup_app. split_and!.
  - simpl. rewrite <-list_fmap_compose.
    change (NoDup ((PurePath.child base ∘ fst) <$> es)).
    rewrite list_fmap_compose. apply NoDup_fmap_2; [|done].
    intros c c' Heq. unfold PurePath.child in Heq.
    by apply app_inv_head in Heq as [= ->].
  - intros p [[p' m] [-> [c [-> _]]%elem_of_iterdir]]%list_elem_of_fmap.
    intros [[p2 m2] [Heq ([c' sub] & Hin' & Hin)%list_elem_of_bind]]%list_elem_of_fmap.
    simpl in *. subst p2.
    rewrite Forall_forall in Hsub.
    apply rglob_sound in Hin' as (rest & Hne & Heq & _); [|by apply (Hsub _ Hin)].
    unfold PurePath.child in Heq. rewrite <-app_assoc in Heq.
    apply app_inv_head in Heq. destruct rest; simplify_eq/=.
  - clear Hwf. induction es as [|[c sub] es IHes]; [constructor|].
    apply NoDup_cons in Hnodup as [Hnotin Hnodup].
    apply Forall_cons in Hsub as [Hwf Hsub].
    apply Forall_cons in IH as [IHsub IH].
    simpl. rewrite fmap_app. apply NoDup_app. split_and!; [by apply IHsub| |by apply IHes].
    intros p [[p' m] [-> Hin1]]%list_elem_of_fmap.
    intros [[p2 m2] [Heq ([c' sub'] & Hin' & Hin)%list_elem_of_bind]]%list_elem_of_fmap.
    simpl in *. subst p2.
    rewrite Forall_forall in Hsub.
    apply rglob_sound in Hin1 as (rest1 & _ & -> & _); [|done].
    apply rglob_sound in Hin' as (rest2 & _ & Heq & _); [|by apply (Hsub _ Hin)].
    unfold PurePath.child in Heq. rewrite <-!app_assoc in Heq.
    apply app_inv_head in Heq as [= -> _].
    apply Hnotin, list_elem_of_fmap. by exists (c', sub').
Qed.

End scanner.

Section scanner_spec.

Lemma is_file_None n : is_file n = None ↔ n = Denied.
Proof. by destruct n as [| |[[]|]| |]. Qed.


(** The loop of lines 54-60 ends without exception exactly when
    [is_file] answers for every entry; it has then appended, in the order
    of the iterator, the paths that [is_file] and the filter accept. *)
Lemma select_files_inr w exts it : ∀ files out,
  select_files w exts it files = inr out ↔
  Forall (λ pn : Path * node, pn.2 ≠ Denied) it
  ∧ out = files ++
      (filter (λ pn : Path * node,
                 is_file pn.2 = Some true ∧ ext_ok w exts pn.1) it).*1.
Proof.
  induction it as [|[p n] it IH]; intros files out.
  - simpl. rewrite app_nil_r. split; [by intros [= <-]|by intros [_ ->]].
  - cbn [select_files]. rewrite Forall_cons. cbn [snd].
    destruct (is_file n) as [[]|] eqn:Hfile.
    + assert (n ≠ Denied) as Hn by (by intros ->).
      destruct (ext_ok w exts p) eqn:Hext.
      * rewrite IH, filter_cons_True by (cbn [fst snd]; by rewrite Hfile, Hext).
        rewrite fmap_cons, <-app_assoc. naive_solver.
      * rewrite IH, filter_cons_False; [naive_solver|].
        cbn [fst snd]. rewrite Hext. by intros [_ ?].
    + assert (n ≠ Denied) as Hn by (by intros ->).
      rewrite IH, filter_cons_False; [naive_solver|].
      cbn [fst snd]. rewrite Hfile. by intros [? _].
    + apply is_file_None in Hfile as ->. split; [done|]. by intros [[[] _] _].
Qed.

Lemma select_files_inl w exts it : ∀ files e,
  select_files w exts it files = inl e ↔
  e = PermissionError ∧ Exists (λ pn : Path * node, pn.2 = Denied) it.
Proof.
  induction it as [|[p n] it IH]; intros files e.
  - simpl. split; [done|]. by intros [_ ?%Exists_nil].
  - cbn [select_files]. rewrite Exists_cons. cbn [snd].
    destruct (is_file n) as [[]|] eqn:Hfile.
    + assert (n ≠ Denied) as Hn by (by intros ->).
      destruct (ext_ok w exts p); rewrite IH; naive_solver.
    + assert (n ≠ Denied) as Hn by (by intros ->).
      rewrite IH. naive_solver.
    + apply is_file_None in Hfile as ->. naive_solver.
Qed.

Lemma scan_directory_inr w base root exts (recursive : bool) files :
  scan_directory w base root exts recursive = inr files ↔
  Forall (λ pn : Path * node, pn.2 ≠ Denied)
    (if recursive then rglob base root else iterdir base root)
  ∧ files = merge_sort PurePath.le
      (filter (λ pn : Path * node,
                 is_file pn.2 = Some true ∧ ext_ok w exts pn.1)
         (if recursive then rglob base root else iterdir base root)).*1.
Proof.
  unfold scan_directory.
  destruct (select_files w exts _ []) as [e|out] eqn:Hsel.
  - split; [done|]. intros [Hall _].
    apply select_files_inl in Hsel as [_ Hex].
    apply Exists_exists in Hex as (pn & Hin & Hpn).
    rewrite Forall_forall in Hall. by destruct (Hall pn Hin).
  - apply select_files_inr in Hsel as [Hall ->]. simpl. naive_solver.
Qed.

Lemma scan_directory_inl w base root exts (recursive : bool) e :
  scan_directory w base root exts recursive = inl e ↔
  e = PermissionError
  ∧ Exists (λ pn : Path * node, pn.2 = Denied)
      (if recursive then rglob base root else iterdir base root).
Proof.
  unfold scan_directory.
  destruct (select_files w exts _ []) as [e'|out] eqn:Hsel.
  - apply select_files_inl in Hsel as [-> Hex]. naive_solver.
  - split; [done|]. intros [_ Hex].
    apply select_files_inr in Hsel as [Hall _].
    apply Exists_exists in Hex as (pn & Hin & Hpn).
    rewrite Forall_forall in Hall. by destruct (Hall pn Hin).
Qed.

Lemma elem_of_scan_directory w base root exts (recursive : bool) files p :
  scan_directory w base root exts recursive = inr files →
  p ∈ files ↔
  ∃ m, (p, m) ∈ (if recursive then rglob base root else iterdir base root)
       ∧ is_file m = Some true ∧ ext_ok w exts p.
Proof.
  intros [_ ->]%scan_directory_inr.
  rewrite merge_sort_Permutation, list_elem_of_fmap.
  split.
  - intros [[p' m] [-> [[? ?] ?]%list_elem_of_filter]]. by exists m.
  - intros (m & ? & ? & ?). exists (p, m). split; [done|].
    by apply list_elem_of_filter.
Qed.

Lemma iterdir_lstat root base p m :
  wf_node root →
  (p, m) ∈ iterdir base root ↔
  ∃ c, p = base ++ [c] ∧ lstat root [c] = Some m.
Proof.
  intros Hwf. destruct root as [|es| | |];
    try (split; [by intros ?%elem_of_nil|by intros (? & _ & ?)]).
  apply wf_node_Dir in Hwf as [Hnodup _].
  rewrite elem_of_iterdir. simpl. split; intros (c & -> & H); exists c.
  - by rewrite (assoc_NoDup _ _ _ Hnodup H).
  - split; [done|]. apply assoc_elem_of.
    by destruct (assoc c es); simplify_eq.
Qed.

Lemma iterdir_NoDup root base : wf_node root → NoDup (iterdir base root).*1.
Proof.
  intros Hwf. destruct root as [|es| | |]; try by constructor.
  apply wf_node_Dir in Hwf as [Hnodup _].
  simpl. rewrite <-list_fmap_compose.
  change (NoDup ((PurePath.child base ∘ fst) <$> es)).
  rewrite list_fmap_compose. apply NoDup_fmap_2; [|done].
  intros c c' Heq. unfold PurePath.child in Heq.
  by apply app_inv_head in Heq as [= ->].
Qed.

Lemma dotted_cons e : ∃ s, dotted e = String "." s.
Proof.
  unfold dotted. destruct (Str.startswith_dot e) eqn:He; [|by eexists].
  destruct e as [|c e]; [done|]. simpl in He.
  apply bool_decide_eq_true in He as ->. by eexists.
Qed.

(** Line 48 lower-cases the entry as written with its dot: the dot that
    line 48 puts in front is the same before and after [str.lower]. *)
Lemma normalize_ext_dotted w e : normalize_ext w e = str_lower w (dotted e).
Proof.
  unfold normalize_ext, dotted. destruct (Str.startswith_dot e); [done|].
  symmetry. apply (str_lower_dot w).
Qed.

Lemma normalize_ext_starts_with_dot w e :
  Str.startswith_dot (normalize_ext w e) = true.
Proof.
  rewrite normalize_ext_dotted. destruct (dotted_cons e) as [s ->].
  by rewrite str_lower_dot.
Qed.


Lemma ext_ok_Some w e es p :
  ext_ok w (Some (e :: es)) p ↔
  ∃ e', e' ∈ e :: es
        ∧ str_lower w (PurePath.suffix p) = str_lower w (dotted e').
Proof.
  unfold ext_ok, ext_set. simpl exts_given. simpl default.
  rewrite bool_decide_true.
  - simpl andb. cbv iota. rewrite bool_decide_spec, elem_of_list_to_set, list_elem_of_fmap.
    setoid_rewrite normalize_ext_dotted.
    split; intros (e' & ? & ?); by exists e'.
  - intros Hempty. assert (normalize_ext w e ∈ (∅ : gset string)) as []%not_elem_of_empty.
    rewrite <-Hempty. rewrite fmap_cons, list_to_set_cons. set_solver.
Qed.


End scanner_spec.

Section scanner_claims.

Lemma scan_directory_NoDup w base root exts recursive files :
  wf_node root →
  scan_directory w base root exts recursive = inr files → NoDup files.
Proof.
  intros Hwf [_ ->]%scan_directory_inr. rewrite merge_sort_Permutation.
  eapply sublist_NoDup; [|apply fmap_sublist, sublist_filter].
  destruct recursive; [by apply rglob_NoDup|by apply iterdir_NoDup].
Qed.

Lemma listed_iff_lstat base root (recursive : bool) p m :
  wf_node root →
  (p, m) ∈ (if recursive then rglob base root else iterdir base root) ↔
  ∃ rest, p = base ++ rest ∧ rest ≠ []
          ∧ (recursive = false → length rest = 1%nat)
          ∧ lstat root rest = Some m.
Proof.
  intros Hwf. destruct recursive.
  - split.
    + intros Hin. apply rglob_sound in Hin as (rest & ? & ? & ?); [|done].
      by exists rest.
    + intros (rest & -> & ? & _ & ?). by apply rglob_complete.
  - rewrite iterdir_lstat by done. split.
    + intros (c & -> & ?). by exists [c].
    + intros (rest & -> & ? & Hlen & ?).
      destruct rest as [|c [|??]]; [done| |by specialize (Hlen eq_refl)].
      by exists c.
Qed.

Lemma visits_denied_listed base root (recursive : bool) :
  wf_node root →
  visits_denied root recursive ↔
  Exists (λ pn : Path * node, pn.2 = Denied)
    (if recursive then rglob base root else iterdir base root).
Proof.
  intros Hwf. rewrite Exists_exists. unfold visits_denied. split.
  - intros (rest & Hne & Hdepth & Hl). exists (base ++ rest, Denied).
    split; [|done]. apply listed_iff_lstat; [done|]. by exists rest.
  - intros ([p m] & Hin & Hm). simpl in Hm. subst m.
    apply listed_iff_lstat in Hin as (rest & _ & ? & ? & ?); [|done].
    by exists rest.
Qed.

Lemma not_visits_denied_listed base root (recursive : bool) :
  wf_node root →
  ¬ visits_denied root recursive ↔
  Forall (λ pn : Path * node, pn.2 ≠ Denied)
    (if recursive then rglob base root else iterdir base root).
Proof.
  intros Hwf. rewrite (visits_denied_listed base) by done.
  rewrite Forall_forall, Exists_exists. naive_solver.
Qed.





Example scan_not_recursive :
  scan_directory Sample.world ["data"] Sample.tree None false =
  inr [["data"; "a_1.wav"]; ["data"; "b_2.WAV"]; ["data"; "link.wav"];
       ["data"; "notes.txt"]].
Proof. by vm_compute. Qed.

Example scan_recursive_wav :
  scan_directory Sample.world ["data"] Sample.tree (Some ["wav"]) true =
  inr [["data"; "a_1.wav"]; ["data"; "b_2.WAV"]; ["data"; "link.wav"];
       ["data"; "sub"; "c_3_x.wav"]].
Proof. by vm_compute. Qed.

Example scan_locked :
  scan_directory Sample.world ["data"] Fixture.locked (Some ["wav"]) true
  = inl PermissionError
  ∧ lstat Fixture.locked ["locked.wav"] = Some Denied.
Proof. by vm_compute. Qed.

End scanner_claims.

Section extension_filter.

Lemma lower_file_WAV w : str_lower w ".WAV" = ".wav".
Proof. by rewrite str_lower_ascii. Qed.

Lemma lower_file_wav w : str_lower w ".wav" = ".wav".
Proof. by rewrite str_lower_ascii. Qed.


Example dotted_entry_same_filter w p :
  ext_ok w (Some [".WAV"]) p = ext_ok w (Some ["wav"]) p.
Proof.
  apply eq_bool_prop_intro. rewrite !ext_ok_Some.
  split; intros (e' & ->%list_elem_of_singleton & Heq); eexists;
    (split; [by left|]); rewrite Heq;
    change (dotted ".WAV") with ".WAV"; change (dotted "wav") with ".wav";
    by rewrite lower_file_WAV, lower_file_wav.
Qed.

End extension_filter.

(** ** Duration *)

Section duration.

(** Lines 33-41 alone *)
Lemma get_duration_seconds_wave w path :
  get_duration_seconds w path =
  if bool_decide (str_lower w (PurePath.suffix path) = ".wav") then
    match wave_read w path with
    | Some (frames, framerate) =>
        if bool_decide (0 < framerate) then
          match float_of_int framerate, float_of_int frames with
          | Some y, Some x => Some (float_div x y)
          | _, _ => None
          end
        else None
    | None => None
    end
  else None.
Proof. done. Qed.

Lemma get_duration_seconds_not_wav w path :
  str_lower w (PurePath.suffix path) ≠ ".wav" →
  get_duration_seconds w path = None.
Proof.
  intros Hext. rewrite get_duration_seconds_wave.
  by rewrite bool_decide_false.
Qed.

(** C2, on the code. The module binds no name [MutagenFile], so the
    first block of [get_duration_seconds] always ends in the handler of
    line 29: whatever the metadata reader would report, a file whose
    suffix is not [.wav] gets no duration. For [song.mp3], whose metadata
    carry a length of 3.5 s, the function returns nothing. *)
Theorem get_duration_seconds_ignores_metadata :
  (∀ w path, str_lower w (PurePath.suffix path) ≠ ".wav" →
             get_duration_seconds w path = None)
  ∧ mutagen_File Sample.world ["data"; "sub"; "song.mp3"]
    = Some (Some Sample.three_and_a_half)
  ∧ get_duration_seconds Sample.world ["data"; "sub"; "song.mp3"] = None.
Proof.
  split_and!; [|done..]. intros w path Hext.
  by apply get_duration_seconds_not_wav.
Qed.

Example three_and_a_half_bits :
  Sample.three_and_a_half = S754_finite false 7881299347898368 (-51)
  ∧ 7881299347898368 = 7 * 2 ^ 50.
Proof. by vm_compute. Qed.

Example duration_of_wav :
  get_duration_seconds Sample.world ["data"; "a_1.wav"]
  = Some (S754_finite false 4503599627370496 (-51))
  ∧ 4503599627370496 = 2 * 2 ^ 51.
Proof. by vm_compute. Qed.

End duration.

(** ** Rows *)

Section rows.

Implicit Types (row r : gmap string value) (k g c : string).

Lemma token_col_inj : Inj (=) (=) token_col.
Proof.
  intros i j Heq. unfold token_col in Heq.
  apply (inj (String.app "token_")) in Heq. by apply (inj pretty) in Heq.
Qed.

Lemma token_col_not_base i : token_col i ∉ base_cols.
Proof.
  unfold token_col, base_cols. rewrite !elem_of_cons, elem_of_nil.
  intros [H|[H|[H|[H|[H|[H|[]]]]]]]; by simplify_eq/=.
Qed.

Lemma setdefault_lookup k v row k' :
  setdefault k v row !! k' =
  match row !! k' with
  | Some x => Some x
  | None => if bool_decide (k = k') then Some v else None
  end.
Proof.
  unfold setdefault. destruct (row !! k) as [x|] eqn:Hk.
  - destruct (row !! k') eqn:Hk'; [done|].
    case_bool_decide; by simplify_eq.
  - destruct (decide (k = k')) as [->|Hne].
    + by rewrite lookup_insert_eq, Hk, bool_decide_true.
    + rewrite lookup_insert_ne by done. rewrite bool_decide_false by done.
      by destruct (row !! k').
Qed.

Lemma fill_lookup fields row k :
  foldl (λ r c, setdefault c VNone r) row fields !! k =
  match row !! k with
  | Some x => Some x
  | None => if bool_decide (k ∈ fields) then Some VNone else None
  end.
Proof.
  revert row. induction fields as [|c fields IH]; intros row; simpl.
  - by destruct (row !! k).
  - rewrite IH, setdefault_lookup.
    destruct (row !! k); [done|].
    repeat case_bool_decide; try done; set_solver.
Qed.

Lemma fill_row_lookup fields row k :
  fill_row fields row !! k =
  match row !! k with
  | Some x => Some x
  | None => if bool_decide (k ∈ fields) then Some VNone else None
  end.
Proof. apply fill_lookup. Qed.

Lemma fill_row_dom fields row :
  dom (fill_row fields row) = dom row ∪ list_to_set fields.
Proof.
  apply set_eq. intros k.
  rewrite elem_of_union, !elem_of_dom, elem_of_list_to_set, fill_row_lookup.
  destruct (row !! k).
  - split; [left|]; by eauto.
  - case_bool_decide; split; try (intros [[??]|?]); try (intros [??]); eauto; done.
Qed.

Lemma insert_all_lookup (f : string → value) (gs : list string) row k :
  foldl (λ r (kv : string * value), <[kv.1:=kv.2]> r) row ((λ g, (g, f g)) <$> gs) !! k =
  if bool_decide (k ∈ gs) then Some (f k) else row !! k.
Proof.
  revert row. induction gs as [|g gs IH]; intros row; simpl; [done|].
  rewrite IH. case_bool_decide as Hin.
  - rewrite bool_decide_true by (by right). done.
  - destruct (decide (g = k)) as [->|Hne].
    + rewrite lookup_insert_eq. by rewrite bool_decide_true by left.
    + rewrite lookup_insert_ne by done.
      rewrite bool_decide_false; [done|]. set_solver.
Qed.

Lemma set_tokens_other tokens : ∀ i row k,
  (∀ j, (j < length tokens)%nat → k ≠ token_col (i + j)) →
  set_tokens i tokens row !! k = row !! k.
Proof.
  induction tokens as [|t tokens IH]; intros i row k Hk; [done|].
  simpl. rewrite IH.
  - apply lookup_insert_ne. intros Heq.
    apply (Hk 0%nat); [simpl; lia|]. by rewrite Nat.add_0_r.
  - intros j Hj. replace (S i + j)%nat with (i + S j)%nat by lia.
    apply Hk. simpl. lia.
Qed.

Lemma set_tokens_lookup tokens : ∀ i row j t,
  tokens !! j = Some t →
  set_tokens i tokens row !! token_col (i + j) = Some (VStr t).
Proof.
  induction tokens as [|t' tokens IH]; intros i row j t Hj; [done|].
  simpl. destruct j as [|j]; simplify_eq/=.
  - rewrite set_tokens_other.
    + by rewrite Nat.add_0_r, lookup_insert_eq.
    + intros j _ Heq%token_col_inj. lia.
  - replace (i + S j)%nat with (S i + j)%nat by lia. by apply IH.
Qed.

Lemma set_tokens_dom tokens : ∀ i row,
  dom (set_tokens i tokens row) =
  dom row ∪ list_to_set (token_col <$> seq i (length tokens)).
Proof.
  induction tokens as [|t tokens IH]; intros i row; simpl.
  - set_solver.
  - rewrite IH, dom_insert_L. set_solver.
Qed.

Lemma insert_all_dom (f : string → value) (gs : list string) row :
  dom (foldl (λ r (kv : string * value), <[kv.1:=kv.2]> r) row ((λ g, (g, f g)) <$> gs))
  = dom row ∪ list_to_set gs.
Proof.
  apply set_eq. intros k.
  rewrite elem_of_union, !elem_of_dom, elem_of_list_to_set, insert_all_lookup.
  case_bool_decide; split; eauto. by intros [?|?].
Qed.

Lemma base_row_dom w args p : dom (base_row w args p) = list_to_set base_cols.
Proof. unfold base_row. rewrite !dom_insert_L. set_solver. Qed.

(** With [--skip-duration] the duration is absent in every row. *)
Lemma base_row_skip_duration w args p :
  skip_duration args = true →
  base_row w args p !! "duration_seconds" = Some VNone.
Proof. intros Hskip. unfold base_row. by rewrite Hskip, lookup_insert_eq. Qed.

Lemma base_row_is_Some w args p c : c ∈ base_cols → is_Some (base_row w args p !! c).
Proof.
  intros Hc. apply elem_of_dom. rewrite base_row_dom. by apply elem_of_list_to_set.
Qed.

End rows.

(** ** The loop over the files *)

Section loop.

Implicit Types (row r : gmap string value) (mode : Mode).

Lemma split_is_Some s d : d ≠ EmptyString → Str.split s d = Some (Str.split_go d 0 EmptyString s).
Proof. by destruct d. Qed.

Lemma token_cols_mono mode (m m' : nat) :
  (m ≤ m')%nat →
  (list_to_set (token_cols mode m) : gset string) ⊆ list_to_set (token_cols mode m').
Proof.
  intros Hle c. destruct mode; simpl; try done.
  rewrite !elem_of_list_to_set, !list_elem_of_fmap.
  intros (i & -> & [??]%elem_of_seq). exists i. split; [done|].
  apply elem_of_seq. lia.
Qed.

Lemma parse_row_ok mode s row (mt : nat) :
  mode ≠ UseSplit EmptyString → ∃ res, parse_row mode s row mt = inr res.
Proof.
  intros Hmode. destruct mode as [pat|d|]; simpl; [|..|by eauto].
  - destruct (rmatch pat s); by eauto.
  - rewrite split_is_Some by congruence. by eauto.
Qed.

Lemma parse_row_dom mode s row (mt : nat) row' (mt' : nat) :
  parse_row mode s row mt = inr (row', mt') →
  (mt ≤ mt')%nat
  ∧ dom row ⊆ dom row'
  ∧ dom row' ⊆ dom row ∪ list_to_set (extra_cols mode)
                       ∪ list_to_set (token_cols mode mt').
Proof.
  destruct mode as [pat|d|]; simpl.
  - destruct (rmatch pat s) as [m|]; intros [= <- <-].
    + unfold groupdict. rewrite insert_all_dom. set_solver.
    + change (foldl _ row (groupindex pat)) with (fill_row (groupindex pat) row).
      rewrite fill_row_dom. set_solver.
  - destruct (Str.split s d) as [tokens|]; intros [= <- <-].
    rewrite set_tokens_dom. split_and!; [lia|set_solver|].
    apply union_least; [set_solver|].
    intros c. rewrite !elem_of_union, !elem_of_list_to_set, !list_elem_of_fmap.
    intros (i & -> & [??]%elem_of_seq). right. exists i. split; [done|].
    apply elem_of_seq. lia.
  - intros [= <- <-]. set_solver.
Qed.

(** What the loop returns: the rows so far, then one row per file, each
    the parse of the base row of its file; [max_tokens] only grows. *)
Lemma build_rows_spec w args mode files : ∀ rows (mt : nat) rows' (mt' : nat),
  build_rows w args mode files rows mt = inr (rows', mt') →
  (mt ≤ mt')%nat
  ∧ ∃ new, rows' = rows ++ new
      ∧ Forall2 (λ p r, ∃ m0 m1 : nat, (m1 ≤ mt')%nat
          ∧ parse_row mode (PurePath.stem p) (base_row w args p) m0 = inr (r, m1))
          files new.
Proof.
  induction files as [|p files IH]; intros rows mt rows' mt'; simpl.
  - intros [= <- <-]. split; [done|]. exists []. by rewrite app_nil_r.
  - destruct (parse_row _ _ _ _) as [e|[r m1]] eqn:Hparse; [done|].
    intros (Hle & new & -> & Hall)%IH.
    pose proof (parse_row_dom _ _ _ _ _ _ Hparse) as (? & _).
    split; [lia|]. exists (r :: new). split; [by rewrite <-app_assoc|].
    constructor; [|done]. by exists mt, m1.
Qed.

Lemma build_rows_ok w args mode files : ∀ rows (mt : nat),
  mode ≠ UseSplit EmptyString → ∃ res, build_rows w args mode files rows mt = inr res.
Proof.
  induction files as [|p files IH]; intros rows mt Hmode; simpl; [by eauto|].
  destruct (parse_row_ok mode (PurePath.stem p) (base_row w args p) mt Hmode)
    as [[r m1] ->].
  by apply IH.
Qed.

Lemma build_rows_max w args d files : ∀ rows (mt : nat) rows' (mt' : nat),
  build_rows w args (UseSplit d) files rows mt = inr (rows', mt') →
  mt' = (mt `max` max_list (token_count d <$> files))%nat.
Proof.
  induction files as [|p files IH]; intros rows mt rows' mt'; simpl.
  - intros [= <- <-]. lia.
  - unfold token_count at 1.
    destruct (Str.split (PurePath.stem p) d) as [tokens|]; [|done].
    intros ->%IH. symmetry. apply Nat.max_assoc.
Qed.

Lemma collect_spec w args mode files fields rows :
  collect w args mode files = inr (fields, rows) →
  ∃ (K : nat) raw, build_rows w args mode files [] 0 = inr (raw, K)
    ∧ fields = fieldnames mode K
    ∧ rows = fill_row fields <$> raw
    ∧ length rows = length files
    ∧ Forall (λ r, dom r = list_to_set fields) rows.
Proof.
  unfold collect.
  destruct (build_rows _ _ _ _ _ _) as [e|[raw K]] eqn:Hbuild; [done|].
  intros [= <- <-]. exists K, raw. split_and!; try done.
  - apply build_rows_spec in Hbuild as (_ & new & -> & Hall).
    rewrite length_fmap. simpl. symmetry. by eapply Forall2_length.
  - apply build_rows_spec in Hbuild as (_ & new & -> & Hall). simpl.
    apply Forall_fmap, Forall_forall. intros r Hr.
    apply list_elem_of_lookup in Hr as [i Hi].
    destruct (Forall2_lookup_r _ _ _ _ _ Hall Hi) as (p & _ & m0 & m1 & Hm1 & Hparse).
    apply parse_row_dom in Hparse as (_ & _ & Hdom).
    rewrite base_row_dom in Hdom. unfold compose. rewrite fill_row_dom.
    pose proof (token_cols_mono mode _ _ Hm1).
    unfold fieldnames. rewrite !list_to_set_app_L. set_solver.
Qed.

End loop.

(** ** The run as a whole *)

Section run.

Implicit Types (row r : gmap string value) (mode : Mode).

Lemma select_mode_usable w args :
  parse_options_usable w args ↔
  ∃ mode, select_mode w args = inr mode ∧ mode ≠ UseSplit EmptyString.
Proof.
  unfold parse_options_usable, select_mode.
  destruct (regex args) as [[|c r]|].
  - destruct (delimiter args) as [d|]; split.
    + intros Hd. exists (UseSplit d). split; [done|]. congruence.
    + intros (mode & [= <-] & Hne). congruence.
    + intros _. by exists NoParse.
    + done.
  - destruct (re_compile w (String c r)) as [pat|]; split.
    + intros _. by exists (UseRegex pat).
    + by eauto.
    + by intros [? ?].
    + by intros (? & ? & ?).
  - destruct (delimiter args) as [d|]; split.
    + intros Hd. exists (UseSplit d). split; [done|]. congruence.
    + intros (mode & [= <-] & Hne). congruence.
    + intros _. by exists NoParse.
    + done.
Qed.

(** The cells that the writer makes of rows over the schema [fields] *)
Lemma csv_table_ok w fields rows :
  Forall (λ r, dom r = list_to_set fields) rows →
  csv_table w fields rows =
  Some (fields :: ((λ r, (λ c, csv_field w (default (VStr EmptyString) (r !! c))) <$> fields) <$> rows)).
Proof.
  intros Hdom. unfold csv_table.
  assert (mapM (dict_to_list fields) rows =
          Some ((λ r, (λ k, default (VStr EmptyString) (r !! k)) <$> fields) <$> rows)) as ->.
  { apply mapM_Some, Forall2_fmap_r, Forall_Forall2_diag.
    eapply Forall_impl; [done|]. intros r Hr. unfold dict_to_list.
    rewrite bool_decide_true; [done|]. by rewrite Hr. }
  do 2 f_equal. rewrite <-list_fmap_compose. apply list_fmap_ext.
  intros _ r _. simpl. by rewrite <-list_fmap_compose.
Qed.

(** Past the two checks and the choice of the mode, the run is the loop
    followed by the write. *)
Lemma main_unfold w args es p files :
  root w (input_dir args) = Some (Dir es) →
  scanned w args (Dir es) = inr (p :: files) →
  main w args =
  match select_mode w args with
  | inl e => crash e
  | inr mode =>
      match collect w args mode (p :: files) with
      | inl e => crash e
      | inr (fields, rows) => write_csv w args fields rows
      end
  end.
Proof. unfold main, scanned. by intros -> ->. Qed.

Lemma main_found w args es files :
  root w (input_dir args) = Some (Dir es) →
  scanned w args (Dir es) = inr files → files ≠ [] →
  main w args =
  match select_mode w args with
  | inl e => crash e
  | inr mode =>
      match collect w args mode files with
      | inl e => crash e
      | inr (fields, rows) => write_csv w args fields rows
      end
  end.
Proof.
  intros Hroot Hscan Hne. destruct files as [|p files]; [done|].
  by apply (main_unfold _ _ es).
Qed.

Lemma collect_ok w args mode files :
  mode ≠ UseSplit EmptyString →
  ∃ fields rows, collect w args mode files = inr (fields, rows).
Proof.
  intros Hmode. unfold collect.
  destruct (build_rows_ok w args mode files [] 0%nat Hmode) as [[raw K] ->].
  by eauto.
Qed.

(** The rows that the loop hands over never have a key outside the
    schema, so the writer does not refuse them: the write ends by what
    the destination and standard output do. *)
Lemma write_csv_collect w args mode files fields rows :
  collect w args mode files = inr (fields, rows) →
  let table :=
    fields :: ((λ r, (λ c, csv_field w (default (VStr EmptyString) (r !! c)))
                       <$> fields) <$> rows) in
  write_csv w args fields rows =
  match write_table w (output args) table with
  | Some text => exit_with (msg_write_error text)
  | None =>
      match print_out w (msg_written w args) with
      | Some text =>
          {| raised := Some (SystemExit 1); stdout := [];
             stderr := [msg_write_error text];
             csv := Some (output args, table) |}
      | None =>
          {| raised := None; stdout := [msg_written w args]; stderr := [];
             csv := Some (output args, table) |}
      end
  end.
Proof.
  intros (K & raw & _ & _ & _ & _ & Hdom)%collect_spec.
  unfold write_csv. by rewrite csv_table_ok.
Qed.

Lemma csv_main_inv w args dest table :
  csv (main w args) = Some (dest, table) →
  ∃ es files mode fields rows,
    root w (input_dir args) = Some (Dir es)
    ∧ scanned w args (Dir es) = inr files
    ∧ select_mode w args = inr mode
    ∧ collect w args mode files = inr (fields, rows)
    ∧ write_table w (output args) table = None
    ∧ dest = output args
    ∧ table = fields :: ((λ r, (λ c, csv_field w (default (VStr EmptyString) (r !! c))) <$> fields) <$> rows).
Proof.
  unfold main. 
  destruct (root w (input_dir args)) as [[|es| | |]|] eqn:Hroot; try done.
  fold (scanned w args (Dir es)).
  destruct (scanned w args (Dir es)) as [e|[|p files]] eqn:Hfiles; [done..|].
  destruct (select_mode w args) as [e|mode] eqn:Hmode; [done|].
  destruct (collect w args mode (p :: files)) as [e|[fields rows]] eqn:Hcollect; [done|].
  rewrite (write_csv_collect _ _ _ _ _ _ Hcollect). cbv zeta.
  destruct (write_table w (output args) _) eqn:Hwrite; [done|].
  destruct (print_out w _); intros [= <- <-];
    exists es, (p :: files), mode, fields, rows; by rewrite Hwrite.
Qed.

End run.

Section run_claims.

(** When the directory is there, the scan returns at least one file, the
    parsing options can be used, the table goes into the destination and
    the line of line 160 goes out, the run ends with status 0. *)
Lemma main_completes w args es files :
  root w (input_dir args) = Some (Dir es) →
  scanned w args (Dir es) = inr files → files ≠ [] →
  parse_options_usable w args →
  (∀ table, write_table w (output args) table = None) →
  print_out w (msg_written w args) = None →
  ∃ table,
    main w args =
    {| raised := None; stdout := [msg_written w args]; stderr := [];
       csv := Some (output args, table) |}
    ∧ length table = S (length files).
Proof.
  intros Hroot Hscan Hfiles (mode & Hmode & Hne)%select_mode_usable Hwrite Hprint.
  rewrite (main_found _ _ _ _ Hroot Hscan Hfiles), Hmode.
  destruct (collect_ok w args mode files Hne) as (fields & rows & Hcollect).
  rewrite Hcollect, (write_csv_collect _ _ _ _ _ _ Hcollect). cbv zeta.
  rewrite Hwrite, Hprint.
  eexists. split; [done|].
  apply collect_spec in Hcollect as (_ & _ & _ & _ & _ & Hlen & _).
  simpl. by rewrite length_fmap, Hlen.
Qed.

Example body_alone_succeeds :
  exit_status (main Sample.world Sample.args) = 0
  ∧ stdout (main Sample.world Sample.args) = ["CSV écrit: /home/metadata.csv"]
  ∧ (λ t : string * list (list string), (t.1, length t.2))
      <$> csv (main Sample.world Sample.args) = Some ("metadata.csv", 5%nat).
Proof. by vm_compute. Qed.

Example line_66_ends_inside_a_literal :
  lex_line InCode line_66 = InString "034"
  ∧ lex_line InCode "ap.add_argument('x', help='y')  # 'z" = InComment
  ∧ lex_line InCode "s = 'a\'b'" = InCode.
Proof. by vm_compute. Qed.

(** C1, on the code. Line 66 ends inside a string literal (its second
    quote closes the first literal, the third opens one that the fourth
    closes, and the fifth opens one that nothing closes), so the file does
    not compile: whatever the directory, the files and the destination,
    running the file ends with a [SyntaxError] and status 1, no table is
    written and nothing is printed on standard output. The body of
    [main()] alone, on the sample directory, would end with status 0. *)
Theorem run_file_never_succeeds :
  lex_line InCode line_66 = InString "034"
  ∧ (∀ w args,
       uncaught (run_file (main w args)) = Some SyntaxError
       ∧ exit_status (run_file (main w args)) = 1
       ∧ csv (run_file (main w args)) = None
       ∧ stdout (run_file (main w args)) = [])
  ∧ root Sample.world (input_dir Sample.args) = Some Sample.tree
  ∧ scanned Sample.world Sample.args Sample.tree = inr Sample.files
  ∧ write_table Sample.world (output Sample.args) = (λ _, None)
  ∧ exit_status (main Sample.world Sample.args) = 0
  ∧ exit_status (run_file (main Sample.world Sample.args)) = 1.
Proof. split_and!; by vm_compute. Qed.

(** C9. With the empty string as delimiter and no regex in use, a run
    that finds at least one file ends in the parsing step with an
    uncaught [ValueError] for the empty separator: no table is written,
    the script prints nothing on either stream, and the status is 1. *)
Theorem empty_delimiter_raises w args es files :
  root w (input_dir args) = Some (Dir es) →
  scanned w args (Dir es) = inr files → files ≠ [] →
  regex args = None ∨ regex args = Some EmptyString →
  delimiter args = Some EmptyString →
  uncaught (main w args) = Some (ValueError "empty separator")
  ∧ exit_status (main w args) = 1
  ∧ csv (main w args) = None
  ∧ stdout (main w args) = []
  ∧ stderr (main w args) = [].
Proof.
  intros Hroot Hscan Hfiles Hregex Hdelim.
  destruct files as [|p files]; [done|].
  rewrite (main_unfold _ _ _ _ _ Hroot Hscan).
  assert (select_mode w args = inr (UseSplit EmptyString)) as ->.
  { unfold select_mode. by destruct Hregex as [-> | ->]; rewrite Hdelim. }
  done.
Qed.

Lemma empty_delimiter_raises_witness :
  root Sample.world (input_dir (Sample.with_delimiter EmptyString Sample.args))
    = Some (Dir Sample.entries)
  ∧ scanned Sample.world (Sample.with_delimiter EmptyString Sample.args)
      (Dir Sample.entries) = inr Sample.files
  ∧ Sample.files ≠ []
  ∧ (regex (Sample.with_delimiter EmptyString Sample.args) = None
     ∨ regex (Sample.with_delimiter EmptyString Sample.args) = Some EmptyString)
  ∧ delimiter (Sample.with_delimiter EmptyString Sample.args) = Some EmptyString
  ∧ (uncaught (main Sample.world (Sample.with_delimiter EmptyString Sample.args))
       = Some (ValueError "empty separator")
     ∧ exit_status (main Sample.world (Sample.with_delimiter EmptyString Sample.args)) = 1
     ∧ csv (main Sample.world (Sample.with_delimiter EmptyString Sample.args)) = None
     ∧ stdout (main Sample.world (Sample.with_delimiter EmptyString Sample.args)) = []
     ∧ stderr (main Sample.world (Sample.with_delimiter EmptyString Sample.args)) = []).
Proof.
  assert (scanned Sample.world (Sample.with_delimiter EmptyString Sample.args)
            (Dir Sample.entries) = inr Sample.files) as Hscan by (by vm_compute).
  assert (Sample.files ≠ []) as Hfiles by done.
  refine (conj eq_refl (conj Hscan (conj Hfiles
            (conj (or_introl eq_refl) (conj eq_refl _))))).
  apply (empty_delimiter_raises Sample.world
           (Sample.with_delimiter EmptyString Sample.args) Sample.entries
           Sample.files);
    [done|done|done|by left|done].
Defined.

Example main_fails_on_bad_regex :
  raised (main Sample.world (Sample.with_regex "(" Sample.args)) = Some ReError.
Proof. by vm_compute. Qed.

End run_claims.

Section table_claims.

Implicit Types (row r : gmap string value) (mode : Mode).

Lemma fieldnames_order mode (K : nat) :
  fieldnames mode K =
  base_cols ++ match mode with
               | UseRegex pat => groupindex pat
               | UseSplit _ => token_col <$> seq 1 K
               | NoParse => []
               end.
Proof. unfold fieldnames. destruct mode; simpl; by rewrite ?app_nil_r. Qed.



End table_claims.

Section parsing_claims.

Implicit Types (row r : gmap string value) (mode : Mode).

Lemma base_row_no_token w args p i : base_row w args p !! token_col i = None.
Proof.
  apply not_elem_of_dom. rewrite base_row_dom, elem_of_list_to_set.
  apply token_col_not_base.
Qed.

(** C6. In split mode the schema is the six fixed columns followed by
    token_1 .. token_K, where K is the largest number of pieces that the
    stem of a scanned file is cut into. The pieces of a stem, joined
    again by the delimiter, give the stem. The row of every file holds
    its i-th piece under token_i, and an absent value under every token
    column beyond its own pieces. *)
Theorem token_columns w args d files fields rows :
  collect w args (UseSplit d) files = inr (fields, rows) →
  let K := max_list (token_count d <$> files) in
  fields = base_cols ++ (token_col <$> seq 1 K)
  ∧ Forall2 (λ p r, ∃ tokens,
      Str.split (PurePath.stem p) d = Some tokens
      ∧ Str.join d tokens = PurePath.stem p
      ∧ (length tokens ≤ K)%nat
      ∧ (∀ i t, tokens !! i = Some t → r !! token_col (S i) = Some (VStr t))
      ∧ (∀ i, (length tokens ≤ i < K)%nat → r !! token_col (S i) = Some VNone))
      files rows.
Proof.
  intros (K' & raw & Hbuild & -> & -> & _ & _)%collect_spec K.
  pose proof (build_rows_max _ _ _ _ _ _ _ _ Hbuild) as HK. simpl in HK.
  fold K in HK. subst K'.
  rewrite fieldnames_order. split; [done|].
  apply build_rows_spec in Hbuild as (_ & new & Hraw & Hall). simpl in Hraw. subst new.
  apply Forall2_fmap_r. eapply Forall2_impl; [done|].
  intros p r (m0 & m1 & Hm1 & Hparse). simpl in Hparse.
  destruct (Str.split (PurePath.stem p) d) as [tokens|] eqn:Hsplit; [|done].
  injection Hparse as <- <-. exists tokens. split_and!; [done| |lia| |].
  - assert (d ≠ EmptyString) as Hd by (by intros ->).
    destruct (split_join (PurePath.stem p) d Hd) as (pieces & Heq & _ & Hjoin).
    congruence.
  - intros i t Hi. rewrite fill_row_lookup.
    by rewrite (set_tokens_lookup tokens 1 _ i t Hi).
  - intros i [Hlo Hhi]. rewrite fill_row_lookup, set_tokens_other.
    + rewrite base_row_no_token, bool_decide_true; [done|].
      apply elem_of_app. right. apply list_elem_of_fmap. exists (S i).
      split; [done|]. apply elem_of_seq. lia.
    + intros j Hj Heq%token_col_inj. lia.
Qed.

Lemma token_columns_witness :
  ∃ fields rows,
    collect Sample.world (Sample.with_delimiter "_" Sample.args) (UseSplit "_")
      [["data"; "a_b_c.wav"]; ["data"; "x_y.wav"]] = inr (fields, rows)
    ∧ let K := max_list (token_count "_" <$> [["data"; "a_b_c.wav"]; ["data"; "x_y.wav"]]) in
      fields = base_cols ++ (token_col <$> seq 1 K)
      ∧ Forall2 (λ p r, ∃ tokens,
          Str.split (PurePath.stem p) "_" = Some tokens
          ∧ Str.join "_" tokens = PurePath.stem p
          ∧ (length tokens ≤ K)%nat
          ∧ (∀ i t, tokens !! i = Some t → r !! token_col (S i) = Some (VStr t))
          ∧ (∀ i, (length tokens ≤ i < K)%nat → r !! token_col (S i) = Some VNone))
          [["data"; "a_b_c.wav"]; ["data"; "x_y.wav"]] rows.
Proof.
  eexists _, _. split; [vm_compute; reflexivity|].
  apply (token_columns Sample.world (Sample.with_delimiter "_" Sample.args) "_").
  vm_compute. reflexivity.
Defined.

Example token_columns_a_b_c_x_y :
  match collect Sample.world (Sample.with_delimiter "_" Sample.args) (UseSplit "_")
          [["data"; "a_b_c.wav"]; ["data"; "x_y.wav"]] with
  | inr (fields, rows) => Some (fields, (λ r, r !! "token_3") <$> rows)
  | inl _ => None
  end
  = Some (base_cols ++ ["token_1"; "token_2"; "token_3"],
          [Some (VStr "c"); Some VNone]).
Proof. by vm_compute. Qed.

End parsing_claims.

Section regex_claims.

Implicit Types (row r : gmap string value) (mode : Mode).

Lemma parse_row_match pat s m row (mt : nat) :
  rmatch pat s = Some m →
  parse_row (UseRegex pat) s row mt =
  inr (foldl (λ r (kv : string * value), <[kv.1:=kv.2]> r) row (groupdict pat m), mt).
Proof. intros Hm. simpl. by rewrite Hm. Qed.

Lemma parse_row_no_match pat s row (mt : nat) :
  rmatch pat s = None →
  parse_row (UseRegex pat) s row mt = inr (fill_row (groupindex pat) row, mt).
Proof. intros Hm. simpl. by rewrite Hm. Qed.

Lemma occurrences_not_in c l : c ∉ l → occurrences c l = 0%nat.
Proof.
  unfold occurrences. induction l as [|x l IH]; [done|].
  intros [Hne Hnotin]%not_elem_of_cons.
  rewrite filter_cons_False by done. by apply IH.
Qed.

Lemma occurrences_NoDup c l : NoDup l → c ∈ l → occurrences c l = 1%nat.
Proof.
  unfold occurrences. induction l as [|x l IH]; [by intros _ ?%elem_of_nil|].
  intros [Hnotin Hnodup]%NoDup_cons [->|Hin]%elem_of_cons.
  - rewrite filter_cons_True by done. simpl. f_equal.
    by apply occurrences_not_in.
  - rewrite filter_cons_False; [by apply IH|]. by intros ->.
Qed.

Lemma occurrences_app c l1 l2 :
  occurrences c (l1 ++ l2) = (occurrences c l1 + occurrences c l2)%nat.
Proof. unfold occurrences. by rewrite filter_app, length_app. Qed.

(** What regex mode puts in a row. A regex that is given and not empty
    is the one used, whatever the delimiter. When the pattern matches at
    the start of the stem, the row holds under every named group what the
    group captured. When it does not match, every named group is a key of
    the row: line 123 puts an absent value under a name that is not yet a
    key, and leaves the value of a name that is one of the six fixed
    columns as it is. *)
Lemma regex_mode_fields w args rx pat p :
  regex args = Some rx → rx ≠ EmptyString → re_compile w rx = Some pat →
  select_mode w args = inr (UseRegex pat)
  ∧ (∀ m (mt : nat), rmatch pat (PurePath.stem p) = Some m →
       ∃ row, parse_row (UseRegex pat) (PurePath.stem p) (base_row w args p) mt
                = inr (row, mt)
         ∧ ∀ fields g, g ∈ groupindex pat →
             fill_row fields row !! g = Some (of_opt_str (m g)))
  ∧ (∀ mt : nat, rmatch pat (PurePath.stem p) = None →
       ∃ row, parse_row (UseRegex pat) (PurePath.stem p) (base_row w args p) mt
                = inr (row, mt)
         ∧ ∀ fields g, g ∈ groupindex pat →
             is_Some (fill_row fields row !! g)
             ∧ (g ∉ base_cols → fill_row fields row !! g = Some VNone)
             ∧ (g ∈ base_cols →
                fill_row fields row !! g = base_row w args p !! g)).
Proof.
  intros Hregex Hne Hcompile. split_and!.
  - unfold select_mode. rewrite Hregex. destruct rx as [|c rx]; [done|].
    by rewrite Hcompile.
  - intros m mt Hm. eexists. split; [by apply parse_row_match|].
    intros fields g Hg. unfold groupdict.
    rewrite fill_row_lookup, (insert_all_lookup (λ g, of_opt_str (m g))).
    by rewrite bool_decide_true.
  - intros mt Hm. eexists. split; [by apply parse_row_no_match|].
    intros fields g Hg. rewrite !fill_row_lookup.
    destruct (decide (g ∈ base_cols)) as [Hbase|Hbase].
    + destruct (base_row_is_Some w args p g Hbase) as [v Hv]. rewrite Hv.
      split_and!; [by eauto|done|done].
    + assert (base_row w args p !! g = None) as ->.
      { apply not_elem_of_dom. by rewrite base_row_dom, elem_of_list_to_set. }
      rewrite bool_decide_true by done. split_and!; [by eauto|done|done].
Qed.

Example regex_sujet_age :
  match rmatch (Sample.two_groups "sujet" "age") "felix_12_x" with
  | Some m => Some (m "sujet", m "age")
  | None => None
  end = Some (Some "felix", Some "12")
  ∧ rmatch (Sample.two_groups "sujet" "age") "felix" = None.
Proof. by vm_compute. Qed.

(** C5, on the code. The pattern declares the groups [name] and [age];
    the stem [link] does not match it. Line 123 then leaves the key
    [name] as it is, so the row holds the stem under [name] and not an
    absent value, against the comment of line 121; only [age] is absent.
    On the stem [a_1], which matches, line 119 does overwrite [name]. In
    the written table the two rows read [a] and [link] in both columns
    headed [name]. *)
Theorem regex_no_match_keeps_base_value :
  re_compile Sample.world "(?P<name>[^_]+)_(?P<age>\d+)"
    = Some (Sample.two_groups "name" "age")
  ∧ groupindex (Sample.two_groups "name" "age") = ["name"; "age"]
  ∧ rmatch (Sample.two_groups "name" "age") (PurePath.stem ["data"; "link.wav"]) = None
  ∧ match parse_row (UseRegex (Sample.two_groups "name" "age"))
            (PurePath.stem ["data"; "link.wav"])
            (base_row Sample.world Sample.args ["data"; "link.wav"]) 0 with
    | inr (row, _) => (row !! "name", row !! "age")
    | inl _ => (None, None)
    end = (Some (VStr "link"), Some VNone)
  ∧ match parse_row (UseRegex (Sample.two_groups "name" "age"))
            (PurePath.stem ["data"; "a_1.wav"])
            (base_row Sample.world Sample.args ["data"; "a_1.wav"]) 0 with
    | inr (row, _) => (row !! "name", row !! "age")
    | inl _ => (None, None)
    end = (Some (VStr "a"), Some (VStr "1"))
  ∧ (λ t : string * list (list string),
       (λ cells, (cells !! 1%nat, cells !! 2%nat, cells !! 6%nat, cells !! 7%nat))
         <$> t.2)
      <$> csv (main Sample.world
                 (Sample.with_regex "(?P<name>[^_]+)_(?P<age>\d+)" Sample.args))
    = Some [ (Some "filename", Some "name", Some "name", Some "age");
             (Some "a_1.wav", Some "a", Some "a", Some "1");
             (Some "b_2.WAV", Some "b", Some "b", Some "2");
             (Some "link.wav", Some "link", Some "link", Some EmptyString);
             (Some "c_3_x.wav", Some "c", Some "c", Some "3") ].
Proof. split_and!; by vm_compute. Qed.

(** C10. When a named group of the pattern bears the name of one of the
    six fixed columns and the stem matches, the row holds under that name
    what the group captured, in place of the fixed attribute, also after
    the rows are made uniform; the header is the six fixed columns
    followed by the named groups, so the name occurs twice in it. *)
Theorem regex_group_named_like_base_column w args pat p g m (mt K : nat) :
  g ∈ base_cols → g ∈ groupindex pat → NoDup (groupindex pat) →
  rmatch pat (PurePath.stem p) = Some m →
  ∃ row,
    parse_row (UseRegex pat) (PurePath.stem p) (base_row w args p) mt = inr (row, mt)
    ∧ row !! g = Some (of_opt_str (m g))
    ∧ fill_row (fieldnames (UseRegex pat) K) row !! g = Some (of_opt_str (m g))
    ∧ fieldnames (UseRegex pat) K = base_cols ++ groupindex pat
    ∧ occurrences g (fieldnames (UseRegex pat) K) = 2%nat.
Proof.
  intros Hbase Hgroup Hnodup Hm. eexists.
  split; [by apply parse_row_match|].
  assert (foldl (λ r (kv : string * value), <[kv.1:=kv.2]> r) (base_row w args p)
            (groupdict pat m) !! g = Some (of_opt_str (m g))) as Hrow.
  { unfold groupdict. rewrite (insert_all_lookup (λ g, of_opt_str (m g))).
    by rewrite bool_decide_true. }
  split_and!.
  - done.
  - by rewrite fill_row_lookup, Hrow.
  - apply (fieldnames_order (UseRegex pat)).
  - rewrite (fieldnames_order (UseRegex pat)), occurrences_app.
    rewrite (occurrences_NoDup g (groupindex pat)) by done.
    rewrite (occurrences_NoDup g base_cols); [done| |done].
    apply (bool_decide_unpack _). by vm_compute.
Qed.

Lemma regex_group_named_like_base_column_witness :
  ∃ m,
    "filename" ∈ base_cols
    ∧ "filename" ∈ groupindex (Sample.two_groups "filename" "age")
    ∧ NoDup (groupindex (Sample.two_groups "filename" "age"))
    ∧ rmatch (Sample.two_groups "filename" "age") (PurePath.stem ["data"; "a_1.wav"]) = Some m
    ∧ ∃ row,
        parse_row (UseRegex (Sample.two_groups "filename" "age"))
          (PurePath.stem ["data"; "a_1.wav"])
          (base_row Sample.world Sample.args ["data"; "a_1.wav"]) 0 = inr (row, 0%nat)
        ∧ row !! "filename" = Some (of_opt_str (m "filename"))
        ∧ fill_row (fieldnames (UseRegex (Sample.two_groups "filename" "age")) 0) row
            !! "filename" = Some (of_opt_str (m "filename"))
        ∧ fieldnames (UseRegex (Sample.two_groups "filename" "age")) 0
            = base_cols ++ groupindex (Sample.two_groups "filename" "age")
        ∧ occurrences "filename"
            (fieldnames (UseRegex (Sample.two_groups "filename" "age")) 0) = 2%nat.
Proof.
  assert ("filename" ∈ base_cols) as Hbase
    by (apply (bool_decide_unpack _); by vm_compute).
  assert ("filename" ∈ groupindex (Sample.two_groups "filename" "age")) as Hgroup
    by (apply (bool_decide_unpack _); by vm_compute).
  assert (NoDup (groupindex (Sample.two_groups "filename" "age"))) as Hnodup
    by (apply (bool_decide_unpack _); by vm_compute).
  eexists.
  refine (conj Hbase (conj Hgroup (conj Hnodup (conj _ _)))).
  - vm_compute. reflexivity.
  - by apply (regex_group_named_like_base_column Sample.world Sample.args
                (Sample.two_groups "filename" "age") ["data"; "a_1.wav"] "filename").
Defined.

Example header_with_colliding_group :
  (λ t : string * list (list string), take 2 t.2) <$>
  csv (main Sample.world
         (Sample.with_regex "(?P<filename>[^_]+)_(?P<age>\d+)" Sample.args))
  = Some [ ["filepath"; "filename"; "name"; "ext"; "size_bytes";
            "duration_seconds"; "filename"; "age"];
           ["/home/data/a_1.wav"; "a"; "a_1"; ".wav"; "1024"; "4503599627370496p-51";
            "a"; "1"] ].
Proof. by vm_compute. Qed.

End regex_claims.

Section error_claims.

Implicit Types (row r : gmap string value) (mode : Mode).

Lemma main_not_a_directory w args :
  (∀ es, root w (input_dir args) ≠ Some (Dir es)) →
  root w (input_dir args) ≠ Some Denied →
  main w args = exit_with msg_not_a_directory.
Proof.
  intros Hroot Hdenied. unfold main.
  destruct (root w (input_dir args)) as [[|es| | |]|]; try done.
  by destruct (Hroot es).
Qed.

Lemma main_denied_root w args :
  root w (input_dir args) = Some Denied → main w args = crash PermissionError.
Proof. unfold main. by intros ->. Qed.

Lemma main_no_file w args es :
  root w (input_dir args) = Some (Dir es) →
  scanned w args (Dir es) = inr [] →
  main w args = exit_with msg_no_file.
Proof. unfold main, scanned. by intros -> ->. Qed.

(** A [stat] that raises during the scan ends the run: nothing in
    [main] catches the exception of line 55. *)
Lemma main_scan_error w args es :
  root w (input_dir args) = Some (Dir es) →
  wf_node (Dir es) →
  visits_denied (Dir es) (negb (no_recursive args)) →
  main w args = crash PermissionError.
Proof.
  intros Hroot Hwf Hdenied. unfold main. rewrite Hroot.
  destruct (scan_directory _ _ _ _ _) as [e|files] eqn:Hscan.
  - by apply scan_directory_inl in Hscan as [-> _].
  - apply scan_directory_inr in Hscan as [Hall _].
    by apply not_visits_denied_listed in Hall.
Qed.

Lemma main_write_error w args es files text :
  root w (input_dir args) = Some (Dir es) →
  scanned w args (Dir es) = inr files → files ≠ [] →
  parse_options_usable w args →
  (∀ table, write_table w (output args) table = Some text) →
  main w args = exit_with (msg_write_error text).
Proof.
  intros Hroot Hscan Hfiles (mode & Hmode & Hne)%select_mode_usable Hwrite.
  rewrite (main_found _ _ _ _ Hroot Hscan Hfiles), Hmode.
  destruct (collect_ok w args mode files Hne) as (fields & rows & Hcollect).
  rewrite Hcollect, (write_csv_collect _ _ _ _ _ _ Hcollect). cbv zeta.
  by rewrite Hwrite.
Qed.

(** A [stat] that fails on line 98 and a duration that cannot be found
    leave an absent value in the row. *)
Lemma base_row_absent w args p :
  (stat_size w p = None → base_row w args p !! "size_bytes" = Some VNone)
  ∧ (get_duration_seconds w p = None →
     base_row w args p !! "duration_seconds" = Some VNone).
Proof.
  split.
  - intros Hstat. unfold base_row. rewrite Hstat.
    by rewrite lookup_insert_ne, lookup_insert_eq.
  - intros Hdur. unfold base_row. rewrite Hdur, lookup_insert_eq.
    by destruct (skip_duration args).
Qed.

Example fatal_errors :
  main Sample.world (Sample.with_input "nowhere" Sample.args)
    = exit_with msg_not_a_directory
  ∧ main Sample.world (Sample.with_exts ["flac"] Sample.args)
    = exit_with msg_no_file
  ∧ main Sample.world (Sample.with_output "/proc/out.csv" Sample.args)
    = exit_with "Erreur à l'écriture du CSV: [Errno 13] Permission denied"
  ∧ (∀ msg, exit_status (exit_with msg) = 1
            ∧ stderr (exit_with msg) = [msg]
            ∧ stdout (exit_with msg) = []
            ∧ csv (exit_with msg) = None).
Proof. split_and!; by vm_compute. Qed.

(** C8, on the code. The directory [data] holds the files of the sample
    and one more entry, [locked.wav], on which [stat] raises (a link into
    a directory that may not be searched). The [is_file] of line 55 lets
    that error through: the scan raises [PermissionError], nothing in
    [main] catches it, and the run ends with status 1 without a table
    and without a line of the script on either stream, so one file that
    cannot be examined aborts the batch. Lines 97-100 guard the same
    [stat]: there a failure leaves an absent size in the row, and the run
    of the sample, where [stat] fails on [b_2.WAV] on line 98, ends with
    status 0. *)
Theorem stat_failure_in_scan_aborts :
  root Fixture.locked_world (input_dir Sample.args) = Some Fixture.locked
  ∧ lstat Fixture.locked ["locked.wav"] = Some Denied
  ∧ is_file Denied = None
  ∧ scanned Fixture.locked_world Sample.args Fixture.locked = inl PermissionError
  ∧ uncaught (main Fixture.locked_world Sample.args) = Some PermissionError
  ∧ exit_status (main Fixture.locked_world Sample.args) = 1
  ∧ stdout (main Fixture.locked_world Sample.args) = []
  ∧ stderr (main Fixture.locked_world Sample.args) = []
  ∧ csv (main Fixture.locked_world Sample.args) = None
  ∧ stat_size Sample.world ["data"; "b_2.WAV"] = None
  ∧ base_row Sample.world Sample.args ["data"; "b_2.WAV"] !! "size_bytes"
    = Some VNone
  ∧ exit_status (main Sample.world Sample.args) = 0.
Proof. split_and!; by vm_compute. Qed.

End error_claims.

(** * Further properties *)

(** ** More on the scanner *)

Section scanner_more.



Example flat_scan_returns_where_deep_scan_raises :
  scan_directory Sample.world ["data"] Fixture.locked_below None false
  = inr [["data"; "ok_1.wav"]]
  ∧ scan_directory Sample.world ["data"] Fixture.locked_below None true
    = inl PermissionError.
Proof. by vm_compute. Qed.

(** With a filter that has at least one entry, a file whose name has no
    suffix (no dot, a leading dot only, or a trailing dot) is never
    returned: every returned path has a suffix that starts with a dot. *)
Theorem filter_needs_suffix w base root e es recursive files p :
  scan_directory w base root (Some (e :: es)) recursive = inr files →
  p ∈ files →
  Str.startswith_dot (PurePath.suffix p) = true.
Proof.
  intros Hscan Hin.
  apply (elem_of_scan_directory _ _ _ _ _ _ _ Hscan) in Hin
    as (m & _ & _ & (e' & _ & Heq)%ext_ok_Some).
  apply (str_lower_dot_inv w). rewrite Heq.
  destruct (dotted_cons e') as [s ->]. by rewrite str_lower_dot.
Qed.

Lemma filter_needs_suffix_witness :
  scan_directory Sample.world ["data"] Sample.tree (Some ["wav"]) true
    = inr Sample.files
  ∧ ["data"; "a_1.wav"] ∈ Sample.files
  ∧ Str.startswith_dot (PurePath.suffix ["data"; "a_1.wav"]) = true.
Proof.
  assert (scan_directory Sample.world ["data"] Sample.tree (Some ["wav"]) true
            = inr Sample.files) as Hscan by (by vm_compute).
  assert (["data"; "a_1.wav"] ∈ Sample.files) as Hin by left.
  refine (conj Hscan (conj Hin _)).
  by apply (filter_needs_suffix Sample.world ["data"] Sample.tree "wav" [] true
              Sample.files).
Defined.

Lemma visits_denied_same root root' recursive :
  (∀ rest, is_file <$> lstat root rest = is_file <$> lstat root' rest) →
  visits_denied root recursive → visits_denied root' recursive.
Proof.
  intros Hsame (rest & Hne & Hdepth & Hl). exists rest. split_and!; [done..|].
  specialize (Hsame rest). rewrite Hl in Hsame. simpl in Hsame.
  destruct (lstat root' rest) as [m|]; [|done].
  injection Hsame as Hm. symmetry in Hm. by apply is_file_None in Hm as ->.
Qed.

(** What the scanner does depends on the tree only through what
    [is_file] answers at each place: two well-formed trees that agree on
    this, with their entries listed in whatever order, give the same
    result. *)
Theorem scan_directory_listing_order w base root root' exts recursive :
  wf_node root → wf_node root' →
  (∀ rest, is_file <$> lstat root rest = is_file <$> lstat root' rest) →
  scan_directory w base root exts recursive
  = scan_directory w base root' exts recursive.
Proof.
  intros Hwf Hwf' Hsame.
  assert (∀ r r' fs fs', wf_node r → wf_node r' →
            (∀ rest, is_file <$> lstat r rest = is_file <$> lstat r' rest) →
            scan_directory w base r exts recursive = inr fs →
            scan_directory w base r' exts recursive = inr fs' →
            ∀ p, p ∈ fs → p ∈ fs') as Hincl.
  { intros r r' fs fs' Hr Hr' Heq Hfs Hfs' p.
    rewrite (elem_of_scan_directory _ _ _ _ _ _ _ Hfs),
      (elem_of_scan_directory _ _ _ _ _ _ _ Hfs').
    intros (m & Hin & Hfile & Hext).
    apply listed_iff_lstat in Hin as (rest & Hp & Hne & Hdepth & Hl); [|done].
    specialize (Heq rest). rewrite Hl in Heq. simpl in Heq.
    destruct (lstat r' rest) as [m'|] eqn:Hl'; [|done].
    injection Heq as Heq. exists m'. split_and!; [|by rewrite <-Heq|done].
    apply listed_iff_lstat; [done|]. by exists rest. }
  destruct (scan_directory w base root exts recursive) as [e|fs] eqn:Hfs,
    (scan_directory w base root' exts recursive) as [e'|fs'] eqn:Hfs'.
  - apply scan_directory_inl in Hfs as [-> _].
    by apply scan_directory_inl in Hfs' as [-> _].
  - apply scan_directory_inl in Hfs as [_ Hex].
    apply (visits_denied_listed base) in Hex; [|done].
    apply (visits_denied_same _ root') in Hex; [|done].
    apply scan_directory_inr in Hfs' as [Hall _].
    by apply not_visits_denied_listed in Hall.
  - apply scan_directory_inl in Hfs' as [_ Hex].
    apply (visits_denied_listed base) in Hex; [|done].
    apply (visits_denied_same _ root) in Hex; [|done].
    apply scan_directory_inr in Hfs as [Hall _].
    by apply not_visits_denied_listed in Hall.
  - f_equal. apply (Sorted_unique PurePath.le).
    + apply scan_directory_inr in Hfs as [_ ->]. apply (Sorted_merge_sort _).
    + apply scan_directory_inr in Hfs' as [_ ->]. apply (Sorted_merge_sort _).
    + apply NoDup_Permutation;
        [by apply (scan_directory_NoDup _ _ _ _ _ _ Hwf Hfs)
        |by apply (scan_directory_NoDup _ _ _ _ _ _ Hwf' Hfs')|].
      intros p. split.
      * by apply (Hincl root root').
      * by apply (Hincl root' root).
Qed.

Lemma scan_directory_listing_order_witness :
  wf_node Sample.tree ∧ wf_node Fixture.shuffled
  ∧ (∀ rest, is_file <$> lstat Sample.tree rest
             = is_file <$> lstat Fixture.shuffled rest)
  ∧ scan_directory Sample.world ["data"] Sample.tree (Some ["wav"]) true
    = scan_directory Sample.world ["data"] Fixture.shuffled (Some ["wav"]) true.
Proof.
  assert (∀ rest, is_file <$> lstat Sample.tree rest
                  = is_file <$> lstat Fixture.shuffled rest) as Hsame.
  { intros [|c rest]; [done|].
    unfold Sample.tree, Sample.entries, Fixture.shuffled. cbn [lstat assoc].
    repeat (case_bool_decide; simplify_eq/=; try done).
    all: destruct rest as [|c' rest]; [done|]; cbn [lstat assoc];
      repeat (case_bool_decide; simplify_eq/=; try done). }
  refine (conj _ (conj _ (conj Hsame _))); [by vm_compute..|].
  apply (scan_directory_listing_order Sample.world ["data"] Sample.tree
           Fixture.shuffled);
    [by vm_compute|by vm_compute|done].
Defined.

End scanner_more.

(** ** More on the duration *)

Section duration_more.

(** A duration is returned exactly for a file whose suffix is [.wav] in
    any letter case, that [wave] can read, and whose frame rate is
    positive (both numbers within the range of a float); it is then the
    float nearest to the number of frames divided by the float nearest to
    the frame rate, rounded to the nearest float. A frame rate of zero
    gives no duration instead of a division error. *)
Theorem get_duration_seconds_Some w path d :
  (get_duration_seconds w path = Some d ↔
   str_lower w (PurePath.suffix path) = ".wav"
   ∧ ∃ frames framerate x y,
       wave_read w path = Some (frames, framerate)
       ∧ 0 < framerate
       ∧ float_of_int frames = Some x
       ∧ float_of_int framerate = Some y
       ∧ d = float_div x y)
  ∧ (∀ frames, wave_read w path = Some (frames, 0) →
               get_duration_seconds w path = None).
Proof.
  rewrite get_duration_seconds_wave. split.
  - case_bool_decide as Hext; [|by split; [|intros [? _]]].
    destruct (wave_read w path) as [[frames framerate]|];
      [|by split; [|intros (_ & ? & ? & ? & ? & ? & _)]].
    case_bool_decide as Hrate.
    + destruct (float_of_int framerate) as [y|] eqn:Hy,
        (float_of_int frames) as [x|] eqn:Hx; split;
        try done;
        try (intros (_ & ? & ? & ? & ? & [= <- <-] & _ & ? & ? & _); congruence).
      * intros [= <-]. split; [done|]. by exists frames, framerate, x, y.
      * intros (_ & ? & ? & ? & ? & [= <- <-] & _ & ? & ? & ->). congruence.
    + split; [done|].
      intros (_ & ? & ? & ? & ? & [= <- <-] & ? & _). lia.
  - intros frames ->. by case_bool_decide.
Qed.

Example duration_upper_case_suffix :
  get_duration_seconds Fixture.other_audio ["data"; "b_2.WAV"]
  = Some (S754_finite false 4503599627370496 (-53))
  ∧ 4503599627370496 = 2 ^ 52.
Proof. by vm_compute. Qed.

(** One frame at 3 Hz: the float nearest to a third *)
Example one_frame_at_3_Hz :
  float_of_int 1 = Some (S754_finite false 4503599627370496 (-52))
  ∧ float_of_int 3 = Some (S754_finite false 6755399441055744 (-51))
  ∧ float_div (S754_finite false 4503599627370496 (-52))
      (S754_finite false 6755399441055744 (-51))
    = S754_finite false 6004799503160661 (-54).
Proof. by vm_compute. Qed.

Example float_of_int_overflow : float_of_int (2 ^ 1024) = None.
Proof. by vm_compute. Qed.

End duration_more.

(** ** More on the run *)

Section run_more.

Implicit Types (row r : gmap string value) (mode : Mode).







Example table_written_and_status_1 :
  exit_status (main Fixture.mute_world Sample.args) = 1
  ∧ stderr (main Fixture.mute_world Sample.args)
    = ["Erreur à l'écriture du CSV: [Errno 32] Broken pipe"]
  ∧ csv (main Fixture.mute_world Sample.args) = csv (main Sample.world Sample.args)
  ∧ is_Some (csv (main Sample.world Sample.args)).
Proof. split_and!; [by vm_compute..|]. vm_compute. by eexists. Qed.

End run_more.

Section options_more.

Implicit Types (row r : gmap string value) (mode : Mode).

(** A regex that is given, not empty and rejected by [re.compile] ends a
    run that found files with an uncaught [re.error]: no table, nothing
    printed by the script, status 1. *)
Theorem bad_regex_raises w args es files rx :
  root w (input_dir args) = Some (Dir es) →
  scanned w args (Dir es) = inr files → files ≠ [] →
  regex args = Some rx → rx ≠ EmptyString → re_compile w rx = None →
  uncaught (main w args) = Some ReError
  ∧ exit_status (main w args) = 1
  ∧ csv (main w args) = None
  ∧ stdout (main w args) = []
  ∧ stderr (main w args) = [].
Proof.
  intros Hroot Hscan Hfiles Hregex Hne Hcompile.
  rewrite (main_found _ _ _ _ Hroot Hscan Hfiles).
  assert (select_mode w args = inl ReError) as ->; [|done].
  unfold select_mode. rewrite Hregex. destruct rx as [|c rx]; [done|].
  by rewrite Hcompile.
Qed.

Lemma bad_regex_raises_witness :
  root Sample.world (input_dir (Sample.with_regex "(" Sample.args))
    = Some (Dir Sample.entries)
  ∧ scanned Sample.world (Sample.with_regex "(" Sample.args) (Dir Sample.entries)
    = inr Sample.files
  ∧ Sample.files ≠ []
  ∧ regex (Sample.with_regex "(" Sample.args) = Some "("
  ∧ "(" ≠ EmptyString
  ∧ re_compile Sample.world "(" = None
  ∧ (uncaught (main Sample.world (Sample.with_regex "(" Sample.args)) = Some ReError
     ∧ exit_status (main Sample.world (Sample.with_regex "(" Sample.args)) = 1
     ∧ csv (main Sample.world (Sample.with_regex "(" Sample.args)) = None
     ∧ stdout (main Sample.world (Sample.with_regex "(" Sample.args)) = []
     ∧ stderr (main Sample.world (Sample.with_regex "(" Sample.args)) = []).
Proof.
  assert (scanned Sample.world (Sample.with_regex "(" Sample.args)
            (Dir Sample.entries) = inr Sample.files) as Hscan by (by vm_compute).
  assert (Sample.files ≠ []) as Hfiles by done.
  assert ("(" ≠ EmptyString) as Hne by done.
  refine (conj eq_refl (conj Hscan (conj Hfiles (conj eq_refl
            (conj Hne (conj eq_refl _)))))).
  by apply (bad_regex_raises Sample.world (Sample.with_regex "(" Sample.args)
              Sample.entries Sample.files "(").
Defined.

Lemma build_rows_set_regex w a (rx : option string) mode files : ∀ rows (mt : nat),
  build_rows w (set_regex rx a) mode files rows mt
  = build_rows w a mode files rows mt.
Proof.
  induction files as [|p files IH]; intros rows mt; [done|].
  simpl. change (base_row w (set_regex rx a) p) with (base_row w a p).
  destruct (parse_row _ _ _ _) as [e|[row m1]]; [done|]. apply IH.
Qed.

(** An empty [--regex] counts as no regex at all: the run is the same,
    so a delimiter given with it is used. *)
Theorem empty_regex_is_no_regex w a :
  main w (set_regex (Some EmptyString) a) = main w (set_regex None a).
Proof.
  unfold main, collect. simpl.
  destruct (root w (input_dir a)) as [[|es| | |]|]; try done.
  destruct (scan_directory _ _ _ _ _) as [e|[|p files]]; [done..|].
  change (select_mode w (set_regex (Some EmptyString) a))
    with (select_mode w (set_regex None a)).
  destruct (select_mode w (set_regex None a)) as [e|mode]; [done|].
  by rewrite !build_rows_set_regex.
Qed.

Lemma ext_ok_same_lower w w' exts p :
  str_lower w' = str_lower w → ext_ok w' exts p = ext_ok w exts p.
Proof.
  intros Hlower. unfold ext_ok, ext_set, normalize_ext. by rewrite Hlower.
Qed.

Lemma select_files_same_lower w w' exts it : ∀ files,
  str_lower w' = str_lower w →
  select_files w' exts it files = select_files w exts it files.
Proof.
  induction it as [|[p n] it IH]; intros files Hlower; [done|].
  cbn [select_files]. rewrite (ext_ok_same_lower w w') by done.
  destruct (is_file n) as [[]|]; [|by apply IH|done].
  destruct (ext_ok w exts p); by apply IH.
Qed.

(** The scan reads the world through [str.lower] alone. *)
Lemma scan_directory_same_lower w w' base root exts recursive :
  str_lower w' = str_lower w →
  scan_directory w' base root exts recursive
  = scan_directory w base root exts recursive.
Proof.
  intros Hlower. unfold scan_directory.
  by rewrite (select_files_same_lower w w').
Qed.

Lemma base_row_skip w w' args p :
  skip_duration args = true →
  stat_size w' = stat_size w → resolve w' = resolve w →
  str_lower w' = str_lower w →
  base_row w' args p = base_row w args p.
Proof.
  intros Hskip Hstat Hresolve Hlower. unfold base_row.
  by rewrite Hskip, Hstat, Hresolve, Hlower.
Qed.

Lemma build_rows_skip w w' args mode files : ∀ rows (mt : nat),
  skip_duration args = true →
  stat_size w' = stat_size w → resolve w' = resolve w →
  str_lower w' = str_lower w →
  build_rows w' args mode files rows mt = build_rows w args mode files rows mt.
Proof.
  induction files as [|p files IH]; intros rows mt Hskip Hstat Hresolve Hlower;
    [done|].
  simpl. rewrite (base_row_skip w w') by done.
  destruct (parse_row _ _ _ _) as [e|[row m1]]; [done|]. by apply IH.
Qed.

Lemma csv_field_float_str w w' v :
  float_str w' = float_str w → csv_field w' v = csv_field w v.
Proof. intros Hfloat. unfold csv_field. by rewrite Hfloat. Qed.

(** With [--skip-duration] the audio readers are never consulted: two
    worlds that differ only in what mutagen and [wave] would answer give
    the same run, table included. *)
Theorem skip_duration_never_probes w w' args :
  skip_duration args = true →
  root w' = root w → stat_size w' = stat_size w → resolve w' = resolve w →
  re_compile w' = re_compile w → write_table w' = write_table w →
  print_out w' = print_out w → float_str w' = float_str w →
  str_lower w' = str_lower w →
  main w' args = main w args.
Proof.
  intros Hskip Hroot Hstat Hresolve Hcompile Hwrite Hprint Hfloat Hlower.
  assert (select_mode w' args = select_mode w args) as Hmode
    by (unfold select_mode; by rewrite Hcompile).
  unfold main. rewrite Hroot, Hmode.
  destruct (root w (input_dir args)) as [[|es| | |]|]; try done.
  rewrite (scan_directory_same_lower w w') by done.
  destruct (scan_directory _ _ _ _ _) as [e|[|p files]]; [done..|].
  destruct (select_mode w args) as [e|mode]; [done|].
  assert (collect w' args mode (p :: files) = collect w args mode (p :: files))
    as Hsame by (unfold collect; by rewrite (build_rows_skip w w')).
  rewrite Hsame.
  destruct (collect w args mode (p :: files)) as [e|[fields rows]] eqn:Hcollect;
    [done|].
  rewrite (write_csv_collect w _ _ _ _ _ Hcollect),
    (write_csv_collect w' _ _ _ _ _ Hsame).
  cbv zeta. unfold msg_written. rewrite Hwrite, Hprint, Hresolve.
  assert ((λ r, (λ c, csv_field w' (default (VStr EmptyString) (r !! c)))
                  <$> fields) <$> rows
          = (λ r, (λ c, csv_field w (default (VStr EmptyString) (r !! c)))
                    <$> fields) <$> rows) as ->; [|done].
  apply list_fmap_ext. intros _ r _. apply list_fmap_ext. intros _ c _.
  by apply csv_field_float_str.
Qed.

Lemma skip_duration_never_probes_witness :
  skip_duration Fixture.skip_args = true
  ∧ root Fixture.other_audio = root Sample.world
  ∧ stat_size Fixture.other_audio = stat_size Sample.world
  ∧ resolve Fixture.other_audio = resolve Sample.world
  ∧ re_compile Fixture.other_audio = re_compile Sample.world
  ∧ write_table Fixture.other_audio = write_table Sample.world
  ∧ print_out Fixture.other_audio = print_out Sample.world
  ∧ float_str Fixture.other_audio = float_str Sample.world
  ∧ str_lower Fixture.other_audio = str_lower Sample.world
  ∧ main Fixture.other_audio Fixture.skip_args = main Sample.world Fixture.skip_args.
Proof.
  refine (conj eq_refl (conj eq_refl (conj eq_refl (conj eq_refl
            (conj eq_refl (conj eq_refl (conj eq_refl (conj eq_refl
            (conj eq_refl _))))))))).
  by apply (skip_duration_never_probes Sample.world Fixture.other_audio
              Fixture.skip_args).
Defined.

Example probes_matter_without_skip :
  main Fixture.other_audio Sample.args ≠ main Sample.world Sample.args.
Proof. intros Heq%(f_equal csv). vm_compute in Heq. congruence. Qed.

End options_more.

(** ** More on the table *)

Section table_more.

Implicit Types (row r : gmap string value) (mode : Mode).

Lemma base_cols_NoDup : NoDup base_cols.
Proof. apply (bool_decide_unpack _). by vm_compute. Qed.

(** The header has no column twice in split mode and without parsing; in
    regex mode it has none twice exactly when the named groups are
    pairwise distinct and none bears the name of a fixed column. *)
Theorem header_without_duplicates mode (K : nat) :
  NoDup (fieldnames mode K) ↔
  match mode with
  | UseRegex pat =>
      NoDup (groupindex pat) ∧ ∀ g, g ∈ groupindex pat → g ∉ base_cols
  | _ => True
  end.
Proof.
  rewrite fieldnames_order, NoDup_app.
  destruct mode as [pat|d|].
  - split.
    + intros (_ & Hdisj & Hnodup). split; [done|].
      intros g Hg Hbase. by apply (Hdisj g).
    + intros [Hnodup Hdisj]. split_and!; [apply base_cols_NoDup| |done].
      intros g Hbase Hg. by apply (Hdisj g).
  - split; [done|]. intros _. split_and!; [apply base_cols_NoDup| |].
    + intros c Hbase (i & -> & _)%list_elem_of_fmap.
      by apply (token_col_not_base i).
    + apply NoDup_fmap_2; [apply token_col_inj|apply NoDup_seq].
  - split; [done|]. intros _. split_and!; [apply base_cols_NoDup| |constructor].
    intros c _ []%elem_of_nil.
Qed.

End table_more.


Section rows_more.

Implicit Types (row r : gmap string value) (mode : Mode).

Lemma parse_row_keeps mode s row (mt : nat) row' (mt' : nat) c :
  parse_row mode s row mt = inr (row', mt') →
  c ∈ base_cols →
  (∀ pat, mode = UseRegex pat → c ∉ groupindex pat) →
  row' !! c = row !! c.
Proof.
  intros Hparse Hbase Hfree. destruct mode as [pat|d|]; simpl in Hparse.
  - specialize (Hfree pat eq_refl).
    destruct (rmatch pat s) as [m|]; injection Hparse as <- <-.
    + unfold groupdict. rewrite (insert_all_lookup (λ g, of_opt_str (m g))).
      by rewrite bool_decide_false.
    + rewrite fill_lookup, bool_decide_false by done. by destruct (row !! c).
  - destruct (Str.split s d) as [tokens|]; [|done]. injection Hparse as <- <-.
    apply set_tokens_other. intros j _ ->. by apply (token_col_not_base (1 + j)).
  - by injection Hparse as <- <-.
Qed.

Lemma base_row_cells w args p :
  (λ c, csv_field w (default (VStr EmptyString) (base_row w args p !! c)))
    <$> base_cols
  = base_cells w args p.
Proof.
  unfold base_cols, base_cells, base_row. cbn [fmap list_fmap].
  repeat (rewrite lookup_insert_eq || rewrite lookup_insert_ne by done).
  cbn [default csv_field]. repeat f_equal.
  - by destruct (stat_size w p).
  - destruct (skip_duration args); [done|].
    by destruct (get_duration_seconds w p).
Qed.

(** The rows of a written table follow the files in the order of the
    scan, one row per file, and the first six cells of each row are the
    resolved path, the file name, the stem, the lower-cased suffix, the
    size and the duration of its file (the last two empty when absent),
    provided no named group of the pattern bears the name of a fixed
    column. *)
Theorem written_rows_describe_files w args dest table :
  csv (main w args) = Some (dest, table) →
  (∀ pat g, select_mode w args = inr (UseRegex pat) →
            g ∈ groupindex pat → g ∉ base_cols) →
  ∃ es files header body,
    root w (input_dir args) = Some (Dir es)
    ∧ scanned w args (Dir es) = inr files
    ∧ dest = output args
    ∧ table = header :: body
    ∧ take 6 header = base_cols
    ∧ Forall2 (λ p cells, take 6 cells = base_cells w args p) files body.
Proof.
  intros (es & files & mode & fields & rows & Hroot & Hscan & Hmode & Hcollect
          & _ & -> & ->)%csv_main_inv Hfree.
  apply collect_spec in Hcollect as (K & raw & Hbuild & -> & -> & _ & _).
  apply build_rows_spec in Hbuild as (_ & new & Hraw & Hall).
  simpl in Hraw. subst new.
  eexists es, files, _, _. split_and!; [done..| |].
  - rewrite fieldnames_order. by apply take_app_length'.
  - apply Forall2_fmap_r, Forall2_fmap_r.
    eapply Forall2_impl; [done|]. intros p r (m0 & m1 & _ & Hparse).
    unfold compose. cbv beta.
    set (f := λ c, csv_field w
                (default (VStr EmptyString) (fill_row (fieldnames mode K) r !! c))).
    rewrite fieldnames_order, fmap_app, take_app_length' by done.
    subst f. rewrite <-base_row_cells. apply list_fmap_ext. intros i c Hc.
    apply list_elem_of_lookup_2 in Hc.
    destruct (base_row_is_Some w args p c Hc) as [v Hv].
    assert (r !! c = Some v) as Hr.
    { rewrite <-Hv. eapply parse_row_keeps; [done..|].
      intros pat -> Hg. by apply (Hfree pat c). }
    by rewrite fill_row_lookup, Hr, Hv.
Qed.

Lemma written_rows_describe_files_witness :
  ∃ table,
    csv (main Sample.world (Sample.with_delimiter "_" Sample.args))
      = Some ("metadata.csv", table)
    ∧ (∀ pat g, select_mode Sample.world (Sample.with_delimiter "_" Sample.args)
                  = inr (UseRegex pat) →
                g ∈ groupindex pat → g ∉ base_cols)
    ∧ ∃ es files header body,
        root Sample.world (input_dir (Sample.with_delimiter "_" Sample.args))
          = Some (Dir es)
        ∧ scanned Sample.world (Sample.with_delimiter "_" Sample.args) (Dir es)
          = inr files
        ∧ "metadata.csv" = output (Sample.with_delimiter "_" Sample.args)
        ∧ table = header :: body
        ∧ take 6 header = base_cols
        ∧ Forall2 (λ p cells,
            take 6 cells
            = base_cells Sample.world (Sample.with_delimiter "_" Sample.args) p)
            files body.
Proof.
  assert (∀ pat g, select_mode Sample.world (Sample.with_delimiter "_" Sample.args)
                     = inr (UseRegex pat) →
                   g ∈ groupindex pat → g ∉ base_cols) as Hfree
    by (intros pat g Hmode; by vm_compute in Hmode).
  eexists. split; [vm_compute; reflexivity|]. split; [done|].
  apply (written_rows_describe_files Sample.world
           (Sample.with_delimiter "_" Sample.args) "metadata.csv");
    [vm_compute; reflexivity|done].
Defined.

Example rows_of_the_sample :
  (λ t : string * list (list string), take 6 <$> t.2)
    <$> csv (main Sample.world (Sample.with_delimiter "_" Sample.args))
  = Some [ base_cols;
           ["/home/data/a_1.wav"; "a_1.wav"; "a_1"; ".wav"; "1024";
            "4503599627370496p-51"];
           ["/home/data/b_2.WAV"; "b_2.WAV"; "b_2"; ".wav"; EmptyString;
            EmptyString];
           ["/home/data/link.wav"; "link.wav"; "link"; ".wav"; "1024";
            EmptyString];
           ["/home/data/sub/c_3_x.wav"; "c_3_x.wav"; "c_3_x"; ".wav"; "1024";
            EmptyString] ].
Proof. by vm_compute. Qed.

End rows_more.

(** ** More on names and pieces *)

Section names_more.

Implicit Types (row r : gmap string value) (mode : Mode).







Example name_parts_of_upper_case :
  base_row Sample.world Sample.args ["data"; "Cat.01.WAV"] !! "filename"
    = Some (VStr "Cat.01.WAV")
  ∧ base_row Sample.world Sample.args ["data"; "Cat.01.WAV"] !! "name"
    = Some (VStr "Cat.01")
  ∧ base_row Sample.world Sample.args ["data"; "Cat.01.WAV"] !! "ext"
    = Some (VStr ".wav").
Proof. split_and!; by vm_compute. Qed.

End names_more.

Section pieces_more.

Implicit Types (row r : gmap string value) (mode : Mode).

Lemma app_assoc_string (a b c : string) : (a +:+ b) +:+ c = a +:+ (b +:+ c).
Proof. induction a as [|x a IH]; [done|]. by rewrite !app_cons, IH. Qed.

Lemma rev_snoc c (cur : string) :
  String.rev (String c cur) = String.rev cur +:+ String c EmptyString.
Proof. unfold String.rev. simpl. by rewrite rev_app_app. Qed.

Lemma is_prefix_app sep (u s : string) :
  Str.is_prefix sep u = true → Str.is_prefix sep (u +:+ s) = true.
Proof.
  revert u. induction sep as [|a sep IH]; intros [|b u]; simpl; try done.
  intros [Hab Hpre]%andb_prop. rewrite ?app_cons. cbn [Str.is_prefix].
  by rewrite Hab, IH.
Qed.

Lemma starts_within_snoc sep acc c s :
  starts_within sep (acc +:+ String c EmptyString) s
  = starts_within sep acc (String c s) || Str.is_prefix sep (String c s).
Proof.
  induction acc as [|a acc IH].
  - simpl. by rewrite orb_false_r.
  - rewrite app_cons. cbn [starts_within]. rewrite IH.
    replace (String a (acc +:+ String c EmptyString) +:+ s)
      with (String a acc +:+ String c s)
      by (by rewrite <-app_cons, app_assoc_string).
    by rewrite orb_assoc.
Qed.

Lemma starts_within_contains a sep acc s :
  starts_within (String a sep) acc s = false →
  contains (String a sep) acc = false.
Proof.
  induction acc as [|b acc IH]; [done|].
  cbn [starts_within contains]. intros [Hpre Hrest]%orb_false_elim.
  rewrite IH by done. rewrite orb_false_r.
  destruct (Str.is_prefix (String a sep) (String b acc)) eqn:Hhere; [|done].
  by rewrite (is_prefix_app _ _ s Hhere) in Hpre.
Qed.

Lemma split_go_pieces a sep s : ∀ skip cur,
  cur = EmptyString
  ∨ (skip = 0%nat ∧ starts_within (String a sep) (String.rev cur) s = false) →
  Forall (λ t, contains (String a sep) t = false)
    (Str.split_go (String a sep) skip cur s).
Proof.
  induction s as [|c s IH]; intros skip cur Hinv.
  - simpl. constructor; [|constructor].
    destruct Hinv as [->|[_ Hin]]; [done|]. by eapply starts_within_contains.
  - assert (skip = 0%nat →
            starts_within (String a sep) (String.rev cur) (String c s) = false)
      as Hhere by (by destruct Hinv as [->|[_ ?]]).
    destruct skip as [|k].
    + cbn [Str.split_go].
      destruct (Str.is_prefix (String a sep) (String c s)) eqn:Hpre.
      * constructor; [|apply IH; by left].
        eapply starts_within_contains. by apply Hhere.
      * apply IH. right. split; [done|].
        by rewrite rev_snoc, starts_within_snoc, Hhere, Hpre.
    + cbn [Str.split_go]. apply IH. left. by destruct Hinv as [->|[? _]].
Qed.

Lemma split_go_single a sep s : ∀ cur,
  contains (String a sep) s = false →
  Str.split_go (String a sep) 0 cur s = [String.rev cur +:+ s].
Proof.
  induction s as [|c s IH]; intros cur.
  - intros _. simpl. by rewrite app_empty_r.
  - cbn [contains]. intros [Hpre Hrest]%orb_false_elim.
    cbn [Str.split_go]. rewrite Hpre, IH by done. by rewrite rev_cons_app.
Qed.

Lemma split_go_several a sep s : ∀ cur,
  contains (String a sep) s = true →
  (2 ≤ length (Str.split_go (String a sep) 0 cur s))%nat.
Proof.
  induction s as [|c s IH]; intros cur; [done|].
  cbn [contains Str.split_go].
  destruct (Str.is_prefix (String a sep) (String c s)) eqn:Hpre.
  - intros _. simpl.
    pose proof (split_go_not_nil (String a sep) s (String.length sep - 0) EmptyString).
    destruct (Str.split_go _ _ _ s); [done|simpl; lia].
  - simpl. apply IH.
Qed.

Lemma split_Some_facts s d tokens :
  Str.split s d = Some tokens →
  (1 ≤ length tokens)%nat
  ∧ Forall (λ t, contains d t = false) tokens
  ∧ (contains d s = false → tokens = [s]).
Proof.
  destruct d as [|a sep]; [done|]. intros [= <-]. split_and!.
  - pose proof (split_go_not_nil (String a sep) s 0 EmptyString).
    destruct (Str.split_go _ _ _ s); [done|simpl; lia].
  - apply split_go_pieces. by left.
  - intros Hocc. by rewrite split_go_single.
Qed.

(** The pieces of a stem cut at the delimiter: there is at least one, no
    piece contains the delimiter, and there is exactly one piece, the
    stem itself, exactly when the delimiter does not occur in the stem. *)
Theorem split_pieces s d tokens :
  Str.split s d = Some tokens →
  (1 ≤ length tokens)%nat
  ∧ Forall (λ t, contains d t = false) tokens
  ∧ (length tokens = 1%nat ↔ contains d s = false)
  ∧ (contains d s = false → tokens = [s]).
Proof.
  intros Hsplit.
  destruct (split_Some_facts s d tokens Hsplit) as (Hlen & Hfree & Hone).
  split_and!; [done|done| |done].
  destruct d as [|a sep]; [done|]. injection Hsplit as <-.
  destruct (contains (String a sep) s) eqn:Hocc.
  - pose proof (split_go_several a sep s EmptyString Hocc). split; [lia|done].
  - by rewrite split_go_single.
Qed.

Lemma split_pieces_witness :
  Str.split "c_3_x" "_" = Some ["c"; "3"; "x"]
  ∧ (1 ≤ length ["c"; "3"; "x"])%nat
  ∧ Forall (λ t, contains "_" t = false) ["c"; "3"; "x"]
  ∧ (length ["c"; "3"; "x"] = 1%nat ↔ contains "_" "c_3_x" = false)
  ∧ (contains "_" "c_3_x" = false → ["c"; "3"; "x"] = ["c_3_x"]).
Proof.
  split; [done|]. by apply (split_pieces "c_3_x" "_" ["c"; "3"; "x"]).
Defined.

(** In split mode no value stored under a token column contains the
    delimiter, the first token column is never absent, and a stem in
    which the delimiter does not occur is stored whole under token_1. *)
Theorem token_values w args d files fields rows :
  collect w args (UseSplit d) files = inr (fields, rows) →
  Forall2 (λ p r,
    (∀ i t, r !! token_col i = Some (VStr t) → contains d t = false)
    ∧ (∃ t, r !! token_col 1 = Some (VStr t))
    ∧ (contains d (PurePath.stem p) = false →
       r !! token_col 1 = Some (VStr (PurePath.stem p)))) files rows.
Proof.
  intros (K & raw & Hbuild & -> & -> & _ & _)%collect_spec.
  apply build_rows_spec in Hbuild as (_ & new & Hraw & Hall).
  simpl in Hraw. subst new.
  apply Forall2_fmap_r. eapply Forall2_impl; [done|].
  intros p r (m0 & m1 & _ & Hparse). simpl in Hparse.
  destruct (Str.split (PurePath.stem p) d) as [tokens|] eqn:Hsplit; [|done].
  injection Hparse as <- <-.
  apply split_Some_facts in Hsplit as (Hlen & Hfree & Hone).
  assert (∃ t, tokens !! 0%nat = Some t) as [t0 Ht0]
    by (destruct tokens; [simpl in Hlen; lia|by eexists]).
  split_and!.
  - intros i t. rewrite fill_row_lookup.
    destruct (decide (1 ≤ i ≤ length tokens)%nat) as [Hi|Hi].
    + destruct (lookup_lt_is_Some_2 tokens (i - 1)) as [t' Ht']; [lia|].
      replace i with (1 + (i - 1))%nat by lia.
      rewrite (set_tokens_lookup tokens 1 _ _ t' Ht'). intros [= <-].
      rewrite Forall_forall in Hfree. by eapply Hfree, list_elem_of_lookup_2.
    + rewrite set_tokens_other, base_row_no_token.
      * by case_bool_decide.
      * intros j Hj Heq%token_col_inj. lia.
  - exists t0. by rewrite fill_row_lookup, (set_tokens_lookup tokens 1 _ 0 t0 Ht0).
  - intros Hocc. rewrite (Hone Hocc) in Ht0. injection Ht0 as <-.
    rewrite fill_row_lookup, (Hone Hocc).
    by rewrite (set_tokens_lookup [PurePath.stem p] 1 _ 0 (PurePath.stem p)).
Qed.

Lemma token_values_witness :
  ∃ fields rows,
    collect Sample.world (Sample.with_delimiter "_" Sample.args) (UseSplit "_")
      [["data"; "a_b_c.wav"]; ["data"; "xy.wav"]] = inr (fields, rows)
    ∧ Forall2 (λ p r,
        (∀ i t, r !! token_col i = Some (VStr t) → contains "_" t = false)
        ∧ (∃ t, r !! token_col 1 = Some (VStr t))
        ∧ (contains "_" (PurePath.stem p) = false →
           r !! token_col 1 = Some (VStr (PurePath.stem p))))
        [["data"; "a_b_c.wav"]; ["data"; "xy.wav"]] rows.
Proof.
  eexists _, _. split; [vm_compute; reflexivity|].
  eapply (token_values Sample.world (Sample.with_delimiter "_" Sample.args) "_").
  vm_compute. reflexivity.
Defined.

End pieces_more.

Section uniform_more.

Implicit Types (row r : gmap string value) (mode : Mode).

(** Making a row uniform over a schema (lines 147-150) only adds keys:
    every value already in the row stays as it is, the keys afterwards
    are those of the row together with those of the schema, every added
    key holds an absent value, and doing it twice changes nothing more. *)
Theorem fill_row_only_adds fields r :
  (∀ k v, r !! k = Some v → fill_row fields r !! k = Some v)
  ∧ dom (fill_row fields r) = dom r ∪ list_to_set fields
  ∧ (∀ k, r !! k = None → k ∈ fields → fill_row fields r !! k = Some VNone)
  ∧ fill_row fields (fill_row fields r) = fill_row fields r.
Proof.
  split_and!.
  - intros k v Hk. by rewrite fill_row_lookup, Hk.
  - apply fill_row_dom.
  - intros k Hk Hin. by rewrite fill_row_lookup, Hk, bool_decide_true.
  - apply map_eq. intros k. rewrite !fill_row_lookup.
    destruct (r !! k); [done|]. by case_bool_decide.
Qed.

End uniform_more.
